(** * ed25519auth/sign.c : password-derived Ed25519 signing

    A shallow embedding of [sign] (src/ed25519auth/sign.c) and the
    properties of its specification.

    The routine works on byte buffers through pointers: the caller's
    memory (which holds [sm], [m] and [pw]) and four local arrays
    [az], [nonce], [hram], [buff].  It is modelled as a program in a
    state-and-error monad over those buffers; an access outside a
    buffer is an error.  The hash and the curve operations live in
    sha512.h and ge.h, which the routine only calls: they are an
    interface ([Collaborators]) with their contracts stated as
    hypotheses; the scalar operations of sc.h are modelled from the
    specification. *)

From Stdlib Require Import ZArith List Lia Bool Strings.Byte Morphisms Setoid.
From Bignums Require Import BigZ.
Import ListNotations.
Local Open Scope Z_scope.

(* ================================================================= *)
(** ** Bytes and little-endian integers *)

(** [unsigned char]: a value in [0, 256). *)
Definition byte_to_Z (b : byte) : Z := Z.of_N (Byte.to_N b).

(** Conversion to [unsigned char] keeps the low eight bits. *)
Definition byte_of_Z (z : Z) : byte :=
  match Byte.of_N (Z.to_N (z mod 256)) with
  | Some b => b
  | None => x00
  end.

(** [b & k] and [b | k] on an [unsigned char], stored back in one. *)
Definition byte_and (b : byte) (k : Z) : byte := byte_of_Z (Z.land (byte_to_Z b) k).
Definition byte_or (b : byte) (k : Z) : byte := byte_of_Z (Z.lor (byte_to_Z b) k).

(** The integer [bs[0] + 256*bs[1] + 256^2*bs[2] + ...]. *)
Fixpoint le_decode (bs : list byte) : Z :=
  match bs with
  | [] => 0
  | b :: rest => byte_to_Z b + 256 * le_decode rest
  end.

(** The [n] low bytes of [z], least significant first. *)
Fixpoint le_encode (n : nat) (z : Z) : list byte :=
  match n with
  | O => []
  | S k => byte_of_Z z :: le_encode k (z / 256)
  end.

(* ================================================================= *)
(** ** Scalars (sc.h) *)

(** Modelled from the spec: the group order L of the basepoint (sc.h
    and sc.c are absent).  The routine is the Ed25519 one (directory
    ed25519auth, clamp constants 248/63/64), whose basepoint has order
    2^252 + 27742317777372353535851937790883648493. *)
Definition L : Z := 2 ^ 252 + 27742317777372353535851937790883648493.

(** Modelled from the spec: [sc_reduce], absent from src/ (sc.h).
    "ReduceScalar(bytes): reduce an integer (commonly represented over
    32 or 64 bytes) modulo the group order L to canonical little-endian
    form".  The result is the 32 bytes the call leaves at the start of
    its 64-byte argument. *)
Definition sc_reduce (s : list byte) : list byte := le_encode 32 (le_decode s mod L).

(** Modelled from the spec: [sc_muladd], absent from src/ (sc.h).
    "MultiplyAdd(a, b, c: scalars): compute (a*b + c) mod L", the three
    operands and the result being 32 little-endian bytes. *)
Definition sc_muladd (a b c : list byte) : list byte :=
  le_encode 32 ((le_decode a * le_decode b + le_decode c) mod L).

(** A scalar is canonical when it is reduced mod L. *)
Definition canonical (s : list byte) : Prop := 0 <= le_decode s < L.

(* ================================================================= *)
(** ** The collaborators (sha512.h, ge.h) *)

(** What [sign] calls and does not define.  [ge_p3] is the type of
    curve points in the representation of ge.h; a point has several
    representations, [ge_eq] relates those of one point. *)
Class Collaborators : Type := {
  sha512 : list byte -> list byte;
  ge_p3 : Type;
  ge_eq : ge_p3 -> ge_p3 -> Prop;
  ge_zero : ge_p3;
  ge_base : ge_p3;
  ge_add : ge_p3 -> ge_p3 -> ge_p3;
  ge_scalarmult_base : list byte -> ge_p3;
  ge_p3_tobytes : ge_p3 -> list byte
}.

(** [n] times the point [P], by the group law (double-and-add). *)
Definition ge_scalarmult {C : Collaborators} (n : Z) (P : ge_p3) : ge_p3 :=
  match n with
  | Zpos p => Pos.iter_op ge_add p P
  | _ => ge_zero
  end.

(* ================================================================= *)
(** ** Memory *)

(** The objects [sign] touches: the caller's memory and its own four
    arrays.  Locals are distinct objects; [sm], [m] and [pw] all point
    into the caller's memory and may overlap there. *)
Inductive object : Type := Caller | Az | Nonce | Hram | Buff.

(** A pointer: an object and a byte offset in it ([buff + 32]). *)
Record ptr : Type := Ptr { base : object; offset : nat }.

Definition padd (p : ptr) (n : nat) : ptr := Ptr (base p) (offset p + n).

Definition same_object (a b : object) : bool :=
  match a, b with
  | Caller, Caller | Az, Az | Nonce, Nonce | Hram, Hram | Buff, Buff => true
  | _, _ => false
  end.

(** The [n] bytes at [p] and the [n] bytes at [q] share a byte. *)
Definition overlap (p q : ptr) (n : nat) : bool :=
  same_object (base p) (base q) &&
  (offset p <? offset q + n)%nat && (offset q <? offset p + n)%nat.

(** The two [ge_p3] locals. *)
Inductive ge_var : Type := VarA | VarR.

(** A call of a collaborator, with the bytes (or point) it is given. *)
Inductive call {C : Collaborators} : Type :=
| CallSha512 (input : list byte)
| CallScalarmultBase (scalar : list byte)
| CallTobytes (point : ge_p3)
| CallScReduce (input : list byte)
| CallScMuladd (a b c : list byte).

(** The state of one invocation.  [calls] is a ghost field: the
    collaborator calls made so far, oldest first. *)
Record state {C : Collaborators} : Type := State {
  caller : list byte;
  az : list byte;
  nonce : list byte;
  hram : list byte;
  buff : list byte;
  A : ge_p3;
  R : ge_p3;
  calls : list call
}.

(** The indeterminate contents of the locals on entry. *)
Record frame {C : Collaborators} : Type := Frame {
  az0 : list byte;
  nonce0 : list byte;
  hram0 : list byte;
  buff0 : list byte;
  A0 : ge_p3;
  R0 : ge_p3
}.

(** The locals have their declared sizes. *)
Definition frame_wf {C : Collaborators} (f : frame) : Prop :=
  length (az0 f) = 64%nat /\ length (nonce0 f) = 64%nat /\
  length (hram0 f) = 64%nat /\ length (buff0 f) = 96%nat.

Definition enter {C : Collaborators} (mem : list byte) (f : frame) : state :=
  State C mem (az0 f) (nonce0 f) (hram0 f) (buff0 f) (A0 f) (R0 f) [].

Definition get_object {C : Collaborators} (o : object) (st : state) : list byte :=
  match o with
  | Caller => caller st
  | Az => az st
  | Nonce => nonce st
  | Hram => hram st
  | Buff => buff st
  end.

Definition set_object {C : Collaborators} (o : object) (v : list byte) (st : state) : state :=
  match o with
  | Caller => State C v (az st) (nonce st) (hram st) (buff st) (A st) (R st) (calls st)
  | Az => State C (caller st) v (nonce st) (hram st) (buff st) (A st) (R st) (calls st)
  | Nonce => State C (caller st) (az st) v (hram st) (buff st) (A st) (R st) (calls st)
  | Hram => State C (caller st) (az st) (nonce st) v (buff st) (A st) (R st) (calls st)
  | Buff => State C (caller st) (az st) (nonce st) (hram st) v (A st) (R st) (calls st)
  end.

Definition get_var {C : Collaborators} (v : ge_var) (st : state) : ge_p3 :=
  match v with VarA => A st | VarR => R st end.

Definition set_var {C : Collaborators} (v : ge_var) (P : ge_p3) (st : state) : state :=
  match v with
  | VarA => State C (caller st) (az st) (nonce st) (hram st) (buff st) P (R st) (calls st)
  | VarR => State C (caller st) (az st) (nonce st) (hram st) (buff st) (A st) P (calls st)
  end.

(** [n] bytes of [l] from index [i]; none when they are not all there.
    Reading no byte touches nothing and succeeds wherever [i] points:
    [sha512(pw, 0, az)] does not dereference [pw]. *)
Definition read (l : list byte) (i n : nat) : option (list byte) :=
  if ((n =? 0) || (i + n <=? length l))%nat then Some (firstn n (skipn i l)) else None.

(** [l] with the bytes [bs] in place of those from index [i] on. *)
Definition patch (l : list byte) (i : nat) (bs : list byte) : list byte :=
  firstn i l ++ bs ++ skipn (i + length bs) l.

(** [l] with [bs] written from index [i]; none when it does not fit. *)
Definition write (l : list byte) (i : nat) (bs : list byte) : option (list byte) :=
  if (i + length bs <=? length l)%nat then Some (patch l i bs) else None.

(* ================================================================= *)
(** ** The monad of the routine: state, and failure on a bad access *)

Definition M {C : Collaborators} (X : Type) : Type := state -> option (X * state).

Definition ret {C : Collaborators} {X : Type} (x : X) : M X := fun st => Some (x, st).

Definition bind {C : Collaborators} {X Y : Type} (c : M X) (k : X -> M Y) : M Y :=
  fun st => match c st with
            | Some (x, st') => k x st'
            | None => None
            end.

Definition fail {C : Collaborators} {X : Type} : M X := fun _ => None.

Declare Scope sign_scope.
Delimit Scope sign_scope with sign.
Notation "x <- c ;; k" := (bind c (fun x => k))
  (at level 61, c at next level, right associativity) : sign_scope.
Notation "c ;; k" := (bind c (fun _ => k))
  (at level 61, right associativity) : sign_scope.
Local Open Scope sign_scope.

Definition load {C : Collaborators} (p : ptr) (n : nat) : M (list byte) :=
  fun st => match read (get_object (base p) st) (offset p) n with
            | Some bs => Some (bs, st)
            | None => None
            end.

Definition store {C : Collaborators} (p : ptr) (bs : list byte) : M unit :=
  fun st => match write (get_object (base p) st) (offset p) bs with
            | Some l => Some (tt, set_object (base p) l st)
            | None => None
            end.

Definition record {C : Collaborators} (c : call) : M unit :=
  fun st => Some (tt, State C (caller st) (az st) (nonce st) (hram st) (buff st)
                              (A st) (R st) (calls st ++ [c])).

Definition assign {C : Collaborators} (v : ge_var) (P : ge_p3) : M unit :=
  fun st => Some (tt, set_var v P st).

Definition value {C : Collaborators} (v : ge_var) : M ge_p3 :=
  fun st => Some (get_var v st, st).

(* ================================================================= *)
(** ** The statements of [sign] *)

(** [sha512(in, inlen, out)]: hashes [inlen] bytes at [in], writes the
    digest at [out]. *)
Definition sha512_ {C : Collaborators} (input : ptr) (inlen : nat) (out : ptr) : M unit :=
  bs <- load input inlen ;;
  record (CallSha512 bs) ;;
  store out (sha512 bs).

(** [p[0] &= k] and [p[0] |= k]. *)
Definition and_assign {C : Collaborators} (p : ptr) (k : Z) : M unit :=
  bs <- load p 1 ;;
  store p (map (fun b => byte_and b k) bs).

Definition or_assign {C : Collaborators} (p : ptr) (k : Z) : M unit :=
  bs <- load p 1 ;;
  store p (map (fun b => byte_or b k) bs).

(** [memmove(dst, src, n)]: the source is read whole, then written. *)
Definition memmove {C : Collaborators} (dst src : ptr) (n : nat) : M unit :=
  bs <- load src n ;;
  store dst bs.

(** [memcpy(dst, src, n)]: as [memmove], but undefined (here a failure)
    when the two regions overlap. *)
Definition memcpy {C : Collaborators} (dst src : ptr) (n : nat) : M unit :=
  if overlap dst src n then fail
  else bs <- load src n ;;
       store dst bs.

(** [ge_scalarmult_base(&h, a)]: reads the 32-byte scalar at [a]. *)
Definition ge_scalarmult_base_ {C : Collaborators} (h : ge_var) (a : ptr) : M unit :=
  bs <- load a 32 ;;
  record (CallScalarmultBase bs) ;;
  assign h (ge_scalarmult_base bs).

(** [ge_p3_tobytes(s, &h)]: writes the 32-byte encoding of [h] at [s]. *)
Definition ge_p3_tobytes_ {C : Collaborators} (s : ptr) (h : ge_var) : M unit :=
  P <- value h ;;
  record (CallTobytes P) ;;
  store s (ge_p3_tobytes P).

(** [sc_reduce(s)]: reads 64 bytes at [s], leaves the reduced scalar in
    the first 32. *)
Definition sc_reduce_ {C : Collaborators} (s : ptr) : M unit :=
  bs <- load s 64 ;;
  record (CallScReduce bs) ;;
  store s (sc_reduce bs).

(** [sc_muladd(s, a, b, c)]: three 32-byte operands, a 32-byte result. *)
Definition sc_muladd_ {C : Collaborators} (s a b c : ptr) : M unit :=
  x <- load a 32 ;;
  y <- load b 32 ;;
  z <- load c 32 ;;
  record (CallScMuladd x y z) ;;
  store s (sc_muladd x y z).

(* ================================================================= *)
(** ** [sign] *)

Definition p_az : ptr := Ptr Az 0.
Definition p_nonce : ptr := Ptr Nonce 0.
Definition p_hram : ptr := Ptr Hram 0.
Definition p_buff : ptr := Ptr Buff 0.

(** Lines 19-22. *)
Definition key_derivation {C : Collaborators} (pw : ptr) (pwlen : nat) : M unit :=
  sha512_ pw pwlen p_az ;;
  and_assign (padd p_az 0) 248 ;;
  and_assign (padd p_az 31) 63 ;;
  or_assign (padd p_az 31) 64.

(** Lines 24-26. *)
Definition nonce_hash {C : Collaborators} (m : ptr) : M unit :=
  memmove (padd p_buff 64) m 32 ;;
  memmove (padd p_buff 32) (padd p_az 32) 32 ;;
  sha512_ (padd p_buff 32) 64 p_nonce.

(** Lines 28-29. *)
Definition public_point {C : Collaborators} : M unit :=
  ge_scalarmult_base_ VarA p_az ;;
  ge_p3_tobytes_ (padd p_buff 32) VarA.

(** Lines 31-34. *)
Definition commitment {C : Collaborators} (sm : ptr) : M unit :=
  sc_reduce_ p_nonce ;;
  ge_scalarmult_base_ VarR p_nonce ;;
  ge_p3_tobytes_ p_buff VarR ;;
  memcpy sm p_buff 32.

(** Lines 36-38. *)
Definition response {C : Collaborators} (sm : ptr) : M unit :=
  sha512_ p_buff 96 p_hram ;;
  sc_reduce_ p_hram ;;
  sc_muladd_ (padd sm 32) p_hram p_az p_nonce.

(** [void sign(unsigned char sm[64], const unsigned char m[32],
              const unsigned char *pw, size_t pwlen)]. *)
Definition sign {C : Collaborators} (sm m pw : ptr) (pwlen : nat) : M unit :=
  key_derivation pw pwlen ;;
  nonce_hash m ;;
  public_point ;;
  commitment sm ;;
  response sm.

(** One invocation: the caller's memory [mem], pointers into it given
    as offsets, and the locals' contents on entry.  The result is the
    state when [sign] returns. *)
Definition sign_run {C : Collaborators} (mem : list byte) (f : frame)
  (sm m pw pwlen : nat) : option state :=
  match sign (Ptr Caller sm) (Ptr Caller m) (Ptr Caller pw) pwlen (enter mem f) with
  | Some (_, st) => Some st
  | None => None
  end.

(** What the caller sees afterwards: its memory. *)
Definition sign_call {C : Collaborators} (mem : list byte) (f : frame)
  (sm m pw pwlen : nat) : option (list byte) :=
  option_map caller (sign_run mem f sm m pw pwlen).

(* ================================================================= *)
(** ** The pipeline of the specification

    The steps of the specification (its section 4), as pure functions
    on byte strings, in the specification's own terms.  [Spec.Sign] is
    what [sign] is compared with. *)

Module Spec.

(** [l] with [f] applied to its byte of index [i]. *)
Fixpoint update (i : nat) (f : byte -> byte) (l : list byte) : list byte :=
  match l, i with
  | [], _ => []
  | b :: rest, O => f b :: rest
  | b :: rest, S k => b :: update k f rest
  end.

(** Bits of a byte, cleared and set one at a time. *)
Definition clear_bit (i : Z) (b : byte) : byte := byte_of_Z (Z.clearbit (byte_to_Z b) i).
Definition set_bit (i : Z) (b : byte) : byte := byte_of_Z (Z.setbit (byte_to_Z b) i).

(** 4.1: "digest <- Hash(password); clear low 3 bits of byte 0; clear
    bit 255 and set bit 254 of byte 31".  Bits 255 and 254 of the
    little-endian scalar are bits 7 and 6 of its byte 31. *)
Definition KeyDerivation {C : Collaborators} (password : list byte) : list byte :=
  update 31 (fun b => set_bit 6 (clear_bit 7 b))
    (update 0 (fun b => clear_bit 2 (clear_bit 1 (clear_bit 0 b)))
       (sha512 password)).

(** ClampedKeyMaterial = scalarHalf(32) || prefixHalf(32). *)
Definition SecretScalar {C : Collaborators} (password : list byte) : list byte :=
  firstn 32 (KeyDerivation password).

Definition prefixHalf {C : Collaborators} (password : list byte) : list byte :=
  skipn 32 (KeyDerivation password).

(** 4.2: "concatenate prefix || digest (64 bytes); hash; reduce the
    64-byte hash output modulo L to a canonical 32-byte scalar". *)
Definition NonceDerivation {C : Collaborators} (prefix digest : list byte) : list byte :=
  sc_reduce (sha512 (prefix ++ digest)).

(** 4.3: scalarMultiplyBase, then encodePoint. *)
Definition EncodedMultiple {C : Collaborators} (scalar : list byte) : list byte :=
  ge_p3_tobytes (ge_scalarmult_base scalar).

Definition PublicPoint {C : Collaborators} (password : list byte) : list byte :=
  EncodedMultiple (SecretScalar password).

Definition Nonce {C : Collaborators} (digest password : list byte) : list byte :=
  NonceDerivation (prefixHalf password) digest.

Definition CommitmentPoint {C : Collaborators} (digest password : list byte) : list byte :=
  EncodedMultiple (Nonce digest password).

(** 4.4: "the three 32-byte blocks CommitmentPoint, PublicPoint,
    MessageDigest, concatenated in that exact order into a 96-byte
    buffer.  Output: Hash(buffer) reduced mod L". *)
Definition ChallengeInput {C : Collaborators} (digest password : list byte) : list byte :=
  CommitmentPoint digest password ++ PublicPoint password ++ digest.

Definition Challenge {C : Collaborators} (digest password : list byte) : list byte :=
  sc_reduce (sha512 (ChallengeInput digest password)).

(** 4.5: "(ChallengeScalar * SecretScalar + Nonce) mod L". *)
Definition Response {C : Collaborators} (digest password : list byte) : list byte :=
  sc_muladd (Challenge digest password) (SecretScalar password) (Nonce digest password).

(** Signature = CommitmentPoint || ResponseScalar. *)
Definition Sign {C : Collaborators} (digest password : list byte) : list byte :=
  CommitmentPoint digest password ++ Response digest password.

End Spec.

(** The bytes [sign] is given: the digest at [m] and the password at
    [pw], as the caller's memory holds them on entry. *)
Definition digest_at (mem : list byte) (m : nat) : list byte := firstn 32 (skipn m mem).
Definition password_at (mem : list byte) (pw pwlen : nat) : list byte :=
  firstn pwlen (skipn pw mem).

(** The three pointers are valid for the sizes of the signature. *)
Definition valid_call (mem : list byte) (sm m pw pwlen : nat) : Prop :=
  (sm + 64 <= length mem)%nat /\ (m + 32 <= length mem)%nat /\
  (pw + pwlen <= length mem)%nat.

(** What the routine needs of its arguments: [sm] valid for the 64
    bytes it writes, [m] for the 32 it reads, and [pw] for the [pwlen]
    it reads, which for [pwlen] = 0 is no condition on [pw]. *)
Definition accessible_call (mem : list byte) (sm m pw pwlen : nat) : Prop :=
  (sm + 64 <= length mem)%nat /\ (m + 32 <= length mem)%nat /\
  (pwlen = 0%nat \/ (pw + pwlen <= length mem)%nat).

(** The 64 bytes at [sm]. *)
Definition signature_at (mem : list byte) (sm : nat) : list byte := firstn 64 (skipn sm mem).

(* ================================================================= *)
(** ** What a run leaves behind *)

(** The state in which [sign] returns, for the digest [M] and the
    password [P] it was given. *)
Definition final_state {C : Collaborators} (mem : list byte) (sm : nat)
  (M P : list byte) : state :=
  State C
    (patch mem sm (Spec.Sign M P))
    (Spec.KeyDerivation P)
    (Spec.Nonce M P ++ skipn 32 (sha512 (Spec.prefixHalf P ++ M)))
    (Spec.Challenge M P ++ skipn 32 (sha512 (Spec.ChallengeInput M P)))
    (Spec.ChallengeInput M P)
    (ge_scalarmult_base (Spec.SecretScalar P))
    (ge_scalarmult_base (Spec.Nonce M P))
    [ CallSha512 P;
      CallSha512 (Spec.prefixHalf P ++ M);
      CallScalarmultBase (Spec.SecretScalar P);
      CallTobytes (ge_scalarmult_base (Spec.SecretScalar P));
      CallScReduce (sha512 (Spec.prefixHalf P ++ M));
      CallScalarmultBase (Spec.Nonce M P);
      CallTobytes (ge_scalarmult_base (Spec.Nonce M P));
      CallSha512 (Spec.ChallengeInput M P);
      CallScReduce (sha512 (Spec.ChallengeInput M P));
      CallScMuladd (Spec.Challenge M P) (Spec.SecretScalar P) (Spec.Nonce M P) ].

(** The inputs of the hash calls of a run, in order. *)
Definition sha512_inputs {C : Collaborators} (cs : list call) : list (list byte) :=
  flat_map (fun c => match c with CallSha512 x => [x] | _ => [] end) cs.

(** The scalars given to [ge_scalarmult_base], in order. *)
Definition scalarmult_inputs {C : Collaborators} (cs : list call) : list (list byte) :=
  flat_map (fun c => match c with CallScalarmultBase x => [x] | _ => [] end) cs.

(** The operand triples given to [sc_muladd], in order. *)
Definition muladd_operands {C : Collaborators} (cs : list call)
  : list (list byte * list byte * list byte) :=
  flat_map (fun c => match c with CallScMuladd x y z => [(x, y, z)] | _ => [] end) cs.

(** Every operand of every multiply-add of a run is canonical. *)
Definition all_operands_canonical {C : Collaborators} (st : state) : Prop :=
  forall h a r, In (h, a, r) (muladd_operands (calls st)) ->
                canonical h /\ canonical a /\ canonical r.

(** The scalar a run holds in the first half of [nonce] and of [hram]
    once [sc_reduce] has been applied, and in the first half of [az]. *)
Definition secret_scalar {C : Collaborators} (st : state) : list byte := firstn 32 (az st).
Definition nonce_scalar {C : Collaborators} (st : state) : list byte := firstn 32 (nonce st).
Definition challenge_scalar {C : Collaborators} (st : state) : list byte := firstn 32 (hram st).

(** The clamp, bit by bit: of byte 0 the three low bits are clear; of
    byte 31 bit 7 is clear and bit 6 is set. *)
Definition clamped (k : list byte) : Prop :=
  Z.testbit (byte_to_Z (nth 0 k x00)) 0 = false /\
  Z.testbit (byte_to_Z (nth 0 k x00)) 1 = false /\
  Z.testbit (byte_to_Z (nth 0 k x00)) 2 = false /\
  Z.testbit (byte_to_Z (nth 31 k x00)) 7 = false /\
  Z.testbit (byte_to_Z (nth 31 k x00)) 6 = true.

(* ================================================================= *)
(** ** Verification

    The check a verifier of the signing equation makes (RFC 8032,
    5.1.7) on a public key [Ab], a digest [M] and a signature: the
    signature has 64 bytes, its second half is a scalar S below L, its
    first half and the key decode to points R and A, and
    [S]B = R + [k]A for k the hash of R || A || M read as a
    little-endian integer.  A point decodes from the bytes that encode
    it. *)

Definition decodes_to {C : Collaborators} (bs : list byte) (P : ge_p3) : Prop :=
  ge_p3_tobytes P = bs.

Definition Verifies {C : Collaborators} (Ab M sig : list byte) : Prop :=
  length sig = 64%nat /\
  le_decode (skipn 32 sig) < L /\
  exists PA PR : ge_p3,
    decodes_to Ab PA /\ decodes_to (firstn 32 sig) PR /\
    ge_eq (ge_scalarmult (le_decode (skipn 32 sig)) ge_base)
          (ge_add PR (ge_scalarmult (le_decode (sha512 (firstn 32 sig ++ Ab ++ M))) PA)).

(** The check with both sides multiplied by the cofactor 8, which
    RFC 8032 allows a verifier to make instead. *)
Definition VerifiesCofactored {C : Collaborators} (Ab M sig : list byte) : Prop :=
  length sig = 64%nat /\
  le_decode (skipn 32 sig) < L /\
  exists PA PR : ge_p3,
    decodes_to Ab PA /\ decodes_to (firstn 32 sig) PR /\
    ge_eq (ge_scalarmult 8 (ge_scalarmult (le_decode (skipn 32 sig)) ge_base))
          (ge_scalarmult 8
             (ge_add PR (ge_scalarmult (le_decode (sha512 (firstn 32 sig ++ Ab ++ M))) PA))).

(** The first check as a computation, for given decodings [PA] and [PR] of the
    key and of the first half of the signature; points are compared by
    their encodings. *)
Definition bytes_eqb (x y : list byte) : bool :=
  (length x =? length y)%nat && (le_decode x =? le_decode y).

Definition verifies_with {C : Collaborators} (PA PR : ge_p3) (Ab M sig : list byte) : bool :=
  (length sig =? 64)%nat &&
  (le_decode (skipn 32 sig) <? L) &&
  bytes_eqb (ge_p3_tobytes PA) Ab &&
  bytes_eqb (ge_p3_tobytes PR) (firstn 32 sig) &&
  bytes_eqb
    (ge_p3_tobytes (ge_scalarmult (le_decode (skipn 32 sig)) ge_base))
    (ge_p3_tobytes
       (ge_add PR (ge_scalarmult (le_decode (sha512 (firstn 32 sig ++ Ab ++ M))) PA))).

(* ================================================================= *)
(** ** SHA-512 (sha512.h) *)

(** Modelled from the spec: [sha512], absent from src/ (sha512.h).
    "Hash(data) -> 64 bytes ... a 512-bit cryptographic hash function":
    SHA-512 as FIPS 180-4 defines it, on 64-bit words held in [Z]. *)
Module SHA512.

Definition mask : Z := 2 ^ 64 - 1.

(** Addition modulo 2^64. *)
Definition add (x y : Z) : Z := Z.land (x + y) mask.

Definition rotr (n x : Z) : Z :=
  Z.land (Z.lor (Z.shiftr x n) (Z.shiftl x (64 - n))) mask.

Definition Ch (x y z : Z) : Z := Z.lxor (Z.land x y) (Z.land (Z.lxor x mask) z).
Definition Maj (x y z : Z) : Z :=
  Z.lxor (Z.lxor (Z.land x y) (Z.land x z)) (Z.land y z).
Definition Sigma0 (x : Z) : Z := Z.lxor (Z.lxor (rotr 28 x) (rotr 34 x)) (rotr 39 x).
Definition Sigma1 (x : Z) : Z := Z.lxor (Z.lxor (rotr 14 x) (rotr 18 x)) (rotr 41 x).
Definition sigma0 (x : Z) : Z := Z.lxor (Z.lxor (rotr 1 x) (rotr 8 x)) (Z.shiftr x 7).
Definition sigma1 (x : Z) : Z := Z.lxor (Z.lxor (rotr 19 x) (rotr 61 x)) (Z.shiftr x 6).

(** The eighty round constants. *)
Definition K : list Z := [
    0x428a2f98d728ae22; 0x7137449123ef65cd; 0xb5c0fbcfec4d3b2f; 0xe9b5dba58189dbbc;
    0x3956c25bf348b538; 0x59f111f1b605d019; 0x923f82a4af194f9b; 0xab1c5ed5da6d8118;
    0xd807aa98a3030242; 0x12835b0145706fbe; 0x243185be4ee4b28c; 0x550c7dc3d5ffb4e2;
    0x72be5d74f27b896f; 0x80deb1fe3b1696b1; 0x9bdc06a725c71235; 0xc19bf174cf692694;
    0xe49b69c19ef14ad2; 0xefbe4786384f25e3; 0x0fc19dc68b8cd5b5; 0x240ca1cc77ac9c65;
    0x2de92c6f592b0275; 0x4a7484aa6ea6e483; 0x5cb0a9dcbd41fbd4; 0x76f988da831153b5;
    0x983e5152ee66dfab; 0xa831c66d2db43210; 0xb00327c898fb213f; 0xbf597fc7beef0ee4;
    0xc6e00bf33da88fc2; 0xd5a79147930aa725; 0x06ca6351e003826f; 0x142929670a0e6e70;
    0x27b70a8546d22ffc; 0x2e1b21385c26c926; 0x4d2c6dfc5ac42aed; 0x53380d139d95b3df;
    0x650a73548baf63de; 0x766a0abb3c77b2a8; 0x81c2c92e47edaee6; 0x92722c851482353b;
    0xa2bfe8a14cf10364; 0xa81a664bbc423001; 0xc24b8b70d0f89791; 0xc76c51a30654be30;
    0xd192e819d6ef5218; 0xd69906245565a910; 0xf40e35855771202a; 0x106aa07032bbd1b8;
    0x19a4c116b8d2d0c8; 0x1e376c085141ab53; 0x2748774cdf8eeb99; 0x34b0bcb5e19b48a8;
    0x391c0cb3c5c95a63; 0x4ed8aa4ae3418acb; 0x5b9cca4f7763e373; 0x682e6ff3d6b2b8a3;
    0x748f82ee5defb2fc; 0x78a5636f43172f60; 0x84c87814a1f0ab72; 0x8cc702081a6439ec;
    0x90befffa23631e28; 0xa4506cebde82bde9; 0xbef9a3f7b2c67915; 0xc67178f2e372532b;
    0xca273eceea26619c; 0xd186b8c721c0c207; 0xeada7dd6cde0eb1e; 0xf57d4f7fee6ed178;
    0x06f067aa72176fba; 0x0a637dc5a2c898a6; 0x113f9804bef90dae; 0x1b710b35131c471b;
    0x28db77f523047d84; 0x32caab7b40c72493; 0x3c9ebe0a15c9bebc; 0x431d67c49c100d4c;
    0x4cc5d4becb3e42b6; 0x597f299cfc657e2a; 0x5fcb6fab3ad6faec; 0x6c44198c4a475817
  ].

(** The eight working variables, and the hash value between blocks. *)
Record words8 : Type := Words8 { wa : Z; wb : Z; wc : Z; wd : Z; we : Z; wf : Z; wg : Z; wh : Z }.

Definition H0 : words8 :=
  Words8 
    0x6a09e667f3bcc908 0xbb67ae8584caa73b 0x3c6ef372fe94f82b 0xa54ff53a5f1d36f1
    0x510e527fade682d1 0x9b05688c2b3e6c1f 0x1f83d9abfb41bd6b 0x5be0cd19137e2179.

(** Big-endian integers, as SHA-512 reads and writes them. *)
Definition be_decode (bs : list byte) : Z :=
  fold_left (fun acc b => acc * 256 + byte_to_Z b) bs 0.

Definition be_encode (n : nat) (z : Z) : list byte := rev (le_encode n z).

(** The message, a 1 bit, zeros up to 112 mod 128 bytes, and the bit
    length on 16 bytes. *)
Definition pad (msg : list byte) : list byte :=
  let l := length msg in
  msg ++ [x80] ++ repeat x00 ((128 - (l + 17) mod 128) mod 128)
      ++ be_encode 16 (8 * Z.of_nat l).

Fixpoint blocks (n : nat) (l : list byte) : list (list byte) :=
  match n with
  | O => []
  | S k => firstn 128 l :: blocks k (skipn 128 l)
  end.

Fixpoint words (n : nat) (l : list byte) : list Z :=
  match n with
  | O => []
  | S k => be_decode (firstn 8 l) :: words k (skipn 8 l)
  end.

(** The message schedule as a window of sixteen words: W(t) .. W(t+15)
    becomes W(t+1) .. W(t+16). *)
Definition next_window (w : list Z) : list Z :=
  tl w ++ [add (add (sigma1 (nth 14 w 0)) (nth 9 w 0))
               (add (sigma0 (nth 1 w 0)) (nth 0 w 0))].

Definition round (s : words8) (k w : Z) : words8 :=
  let t1 := add (add (add (add (wh s) (Sigma1 (we s))) (Ch (we s) (wf s) (wg s))) k) w in
  let t2 := add (Sigma0 (wa s)) (Maj (wa s) (wb s) (wc s)) in
  Words8 (add t1 t2) (wa s) (wb s) (wc s) (add (wd s) t1) (we s) (wf s) (wg s).

Fixpoint rounds (ks : list Z) (w : list Z) (s : words8) : words8 :=
  match ks with
  | [] => s
  | k :: ks' => rounds ks' (next_window w) (round s k (nth 0 w 0))
  end.

Definition compress (h : words8) (block : list byte) : words8 :=
  let s := rounds K (words 16 block) h in
  Words8 (add (wa h) (wa s)) (add (wb h) (wb s)) (add (wc h) (wc s)) (add (wd h) (wd s))
         (add (we h) (we s)) (add (wf h) (wf s)) (add (wg h) (wg s)) (add (wh h) (wh s)).

Definition digest (h : words8) : list byte :=
  be_encode 8 (wa h) ++ be_encode 8 (wb h) ++ be_encode 8 (wc h) ++ be_encode 8 (wd h) ++
  be_encode 8 (we h) ++ be_encode 8 (wf h) ++ be_encode 8 (wg h) ++ be_encode 8 (wh h).

Definition sha512 (msg : list byte) : list byte :=
  let padded := pad msg in
  digest (fold_left compress (blocks (length padded / 128) padded) H0).

End SHA512.

(* ================================================================= *)
(** ** The curve (ge.h) *)

(** Modelled from the spec: the curve operations of ge.h, absent from
    src/: "fixed-basepoint scalar multiplication on the Edwards curve"
    and "canonical compressed point encoding", for edwards25519 in the
    extended coordinates (X : Y : Z : T) of [ge_p3], where x = X/Z,
    y = Y/Z and x*y = T/Z. *)
Module Ed25519.

(** The field: integers modulo 2^255 - 19. *)
Definition p : bigZ := (2 ^ 255 - 19)%bigZ.

Definition fe_add (x y : bigZ) : bigZ := ((x + y) mod p)%bigZ.
Definition fe_sub (x y : bigZ) : bigZ := ((x - y) mod p)%bigZ.
Definition fe_mul (x y : bigZ) : bigZ := ((x * y) mod p)%bigZ.

Fixpoint fe_pow (x : bigZ) (e : positive) : bigZ :=
  match e with
  | xH => (x mod p)%bigZ
  | xO e' => let y := fe_pow x e' in fe_mul y y
  | xI e' => let y := fe_pow x e' in fe_mul x (fe_mul y y)
  end.

(** The inverse, as the power p - 2. *)
Definition fe_invert (z : bigZ) : bigZ := fe_pow z (Z.to_pos (2 ^ 255 - 21)).

(** The curve -x^2 + y^2 = 1 + d x^2 y^2, with d = -121665/121666. *)
Definition d : bigZ :=
  37095705934669439343138083508754565189542113879843219016388785533085940283555%bigZ.

Record point : Type := Point { pX : bigZ; pY : bigZ; pZ : bigZ; pT : bigZ }.

(** The neutral element (0, 1). *)
Definition zero : point := Point 0%bigZ 1%bigZ 1%bigZ 0%bigZ.

(** The basepoint: y = 4/5 and x even. *)
Definition base_x : bigZ :=
  15112221349535400772501151409588531511454012693041857206046113283949847762202%bigZ.
Definition base_y : bigZ :=
  46316835694926478169428394003475163141307993866256225615783033603165251855960%bigZ.
Definition base : point := Point base_x base_y 1%bigZ (fe_mul base_x base_y).

(** Addition, complete on the curve. *)
Definition add (P Q : point) : point :=
  let a := fe_mul (fe_sub (pY P) (pX P)) (fe_sub (pY Q) (pX Q)) in
  let b := fe_mul (fe_add (pY P) (pX P)) (fe_add (pY Q) (pX Q)) in
  let c := fe_mul (fe_mul (fe_mul 2%bigZ (pT P)) (pT Q)) d in
  let dd := fe_mul (fe_mul 2%bigZ (pZ P)) (pZ Q) in
  let e := fe_sub b a in
  let f := fe_sub dd c in
  let g := fe_add dd c in
  let h := fe_add b a in
  Point (fe_mul e f) (fe_mul g h) (fe_mul f g) (fe_mul e h).

(** [ge_p3_tobytes]: y on 255 bits, and the parity of x in the top bit. *)
Definition tobytes (P : point) : list byte :=
  let recip := fe_invert (pZ P) in
  let x := fe_mul (pX P) recip in
  let y := fe_mul (pY P) recip in
  le_encode 32 (BigZ.to_Z y + 2 ^ 255 * (BigZ.to_Z x mod 2)).

(** Two representations of one point have one encoding. *)
Definition eq (P Q : point) : Prop := tobytes P = tobytes Q.

(** The scalar multiple of the basepoint, by double-and-add. *)
Definition scalarmult_base (a : list byte) : point :=
  match le_decode a with
  | Zpos n => Pos.iter_op add n base
  | _ => zero
  end.

(** [sign] with SHA-512 and edwards25519. *)
Definition collaborators : Collaborators := {|
  sha512 := SHA512.sha512;
  ge_p3 := point;
  ge_eq := eq;
  ge_zero := zero;
  ge_base := base;
  ge_add := add;
  ge_scalarmult_base := scalarmult_base;
  ge_p3_tobytes := tobytes
|}.

End Ed25519.

(* ================================================================= *)
(** ** Two further interpretations of the collaborators *)

(** The subgroup the basepoint generates is cyclic of order L.  Here a
    point n*B is represented by any integer congruent to n modulo L;
    addition of points is addition of integers, and a point is encoded
    by its residue.  The hash is SHA-512. *)
Module Cyclic.

Definition eq (x y : Z) : Prop := x mod L = y mod L.

Definition tobytes (x : Z) : list byte := le_encode 32 (x mod L).

Definition collaborators : Collaborators := {|
  sha512 := SHA512.sha512;
  ge_p3 := Z;
  ge_eq := eq;
  ge_zero := 0;
  ge_base := 1;
  ge_add := Z.add;
  ge_scalarmult_base := le_decode;
  ge_p3_tobytes := tobytes
|}.

End Cyclic.

(** A hash whose upper 32 bytes are a checksum of the message (the sum
    of its bytes), the lower 32 bytes depending on the bytes in order:
    two passwords with equal sums share their prefixHalf. *)
Module Checksum.

Definition sum (bs : list byte) : Z := fold_right (fun b acc => byte_to_Z b + acc) 0 bs.

Definition hash (bs : list byte) : list byte :=
  le_encode 32 (le_decode bs + Z.of_nat (length bs)) ++ le_encode 32 (sum bs).

Definition collaborators : Collaborators := {|
  sha512 := hash;
  ge_p3 := Z;
  ge_eq := Cyclic.eq;
  ge_zero := 0;
  ge_base := 1;
  ge_add := Z.add;
  ge_scalarmult_base := le_decode;
  ge_p3_tobytes := Cyclic.tobytes
|}.

End Checksum.

(* ================================================================= *)
(** ** Concrete invocations *)

(** Locals that hold the byte [b] everywhere on entry. *)
Definition frame_of {C : Collaborators} (b : byte) : frame :=
  Frame C (repeat b 64) (repeat b 64) (repeat b 64) (repeat b 96) ge_zero ge_base.

(** The digest of 32 zero bytes and the empty password: [sm] at 0, [m]
    at 64, [pw] at 96 with [pwlen] 0, in 96 bytes of memory. *)
Definition memory_empty_password : list byte := repeat x00 96.

(** The digest 00 01 .. 1f and the password "secret". *)
Definition digest_counting : list byte :=
  [x00; x01; x02; x03; x04; x05; x06; x07; x08; x09; x0a; x0b; x0c; x0d; x0e; x0f;
   x10; x11; x12; x13; x14; x15; x16; x17; x18; x19; x1a; x1b; x1c; x1d; x1e; x1f].

Definition password_secret : list byte := [x73; x65; x63; x72; x65; x74].

(** Memory with room for the signature, then the digest 00 01 .. 1f,
    then the password [P]: [sm] at 0, [m] at 64, [pw] at 96. *)
Definition memory_with (P : list byte) : list byte :=
  repeat x00 64 ++ digest_counting ++ P.

Definition memory_secret : list byte := memory_with password_secret.

(** The same digest and password elsewhere: [pw] at 0, [m] at 6, [sm]
    at 40, in memory that holds other bytes around them. *)
Definition memory_secret_moved : list byte :=
  password_secret ++ digest_counting ++ repeat xff 70.

(** The values of a run on the empty password and the digest of 32
    zero bytes, as an independent implementation of the routine over
    SHA-512 and edwards25519 gives them: the clamped secret scalar, the
    reduced nonce, the reduced challenge, the encoded public point and
    the signature. *)
Definition vector_secret_scalar : list byte :=
  [xc8; x83; xe1; x35; x7e; xef; xb8; xbd; xf1; x54; x28; x50; xd6; x6d; x80; x07;
    xd6; x20; xe4; x05; x0b; x57; x15; xdc; x83; xf4; xa9; x21; xd3; x6c; xe9; x4e].

Definition vector_nonce : list byte :=
  [x30; x6a; x5f; x60; xd6; x4b; xdf; x47; x85; x35; xad; x87; xcb; x4e; xa3; x42;
    x2f; xe4; x0e; xd1; x71; x97; x52; x00; x0f; xcb; x9d; x5d; xab; x9d; x3d; x0a].

Definition vector_challenge : list byte :=
  [xa0; xa4; x0b; x9c; xfb; x7a; x24; x7a; xc8; x85; x76; x99; x0f; x22; x47; x77;
    x3b; x97; x61; x8a; x8b; x31; xae; x80; x80; xf5; xd4; x08; x51; x99; xd4; x0f].

Definition vector_public_key : list byte :=
  [xe0; xb1; xfe; x74; x11; x7e; x1b; x95; xb6; x08; xa4; xf2; x21; xdf; x31; x47;
    x74; xb2; x0e; xa6; x68; x42; x35; x0d; x51; x53; x71; xc7; xc6; x96; x6c; x6e].

Definition vector_signature : list byte :=
  [xef; x1f; x54; xf7; x20; xa3; x28; x0c; xe2; x8b; xd6; x30; x41; xe8; x71; x0a;
    x5e; xc1; x41; xc7; x7a; x6f; x2c; xc7; xa1; x13; x0d; x7f; x82; x14; x78; x58] ++
  [xc4; x93; x46; x91; x58; xa3; x49; x9b; xd5; x29; x90; x8e; xf4; x54; x32; x6a;
    x19; x6f; xad; xff; x37; x28; x65; x80; x1e; x98; x95; xb9; xf7; xca; x19; x0e].

(** The signature of the digest 00 01 .. 1f under the password "secret",
    from the same independent implementation. *)
Definition vector_secret_signature : list byte :=
  [x54; x6c; x3e; x93; x11; xd1; x9e; xe3; x89; xd1; xae; x5d; x94; x58; x21; xbf;
    xe4; x59; x42; x39; x10; x13; x6f; x16; xb3; xbd; x2a; xe8; x9f; xd7; xd6; x3b] ++
  [x44; x9e; x68; x9f; x4b; xe8; x12; x89; x1a; x85; xb8; xf9; x99; x07; x64; x46;
    xd9; x2a; xdb; x83; xd0; x70; x72; x15; xaa; xa6; x0b; x5a; x23; x22; x09; x07].

(** The digest where the signature is to go: [sm] and [m] both at 0,
    [pw] at 64. *)
Definition memory_in_place : list byte :=
  digest_counting ++ repeat x00 32 ++ password_secret.

(* ================================================================= *)
(** ** The shape of a run *)

(** What a collaborator call is and how many bytes it is given. *)
Inductive call_shape : Type :=
| ShapeSha512 (inlen : nat)
| ShapeScalarmultBase (scalar : nat)
| ShapeTobytes
| ShapeScReduce (input : nat)
| ShapeScMuladd (a b c : nat).

Definition shape_of {C : Collaborators} (c : call) : call_shape :=
  match c with
  | CallSha512 x => ShapeSha512 (length x)
  | CallScalarmultBase x => ShapeScalarmultBase (length x)
  | CallTobytes _ => ShapeTobytes
  | CallScReduce x => ShapeScReduce (length x)
  | CallScMuladd x y z => ShapeScMuladd (length x) (length y) (length z)
  end.

(** The password "secret" with the digest of 32 bytes ff: [sm] at 0,
    [m] at 64, [pw] at 96. *)
Definition memory_secret_other_digest : list byte :=
  repeat x00 64 ++ repeat xff 32 ++ password_secret.

(** Two passwords, of 2 and of 257 bytes, that the checksum hash does
    not tell apart. *)
Definition password_short : list byte := [x00; x01].
Definition password_long : list byte := [x01; x00] ++ repeat x00 255.

(* ================================================================= *)
(** * Properties *)

(** ** Bytes *)

Lemma byte_to_Z_range (b : byte) : 0 <= byte_to_Z b < 256.
Proof.
  unfold byte_to_Z. pose proof (Byte.to_N_bounded b). lia.
Qed.

Lemma byte_to_of_Z (z : Z) : byte_to_Z (byte_of_Z z) = z mod 256.
Proof.
  unfold byte_to_Z, byte_of_Z.
  pose proof (Z.mod_pos_bound z 256 ltac:(lia)) as Hr.
  destruct (Byte.of_N (Z.to_N (z mod 256))) as [b|] eqn:E.
  - apply Byte.to_of_N in E. rewrite E. lia.
  - apply Byte.of_N_None_iff in E. lia.
Qed.

Lemma byte_of_to_Z (b : byte) : byte_of_Z (byte_to_Z b) = b.
Proof.
  unfold byte_of_Z, byte_to_Z.
  pose proof (Byte.to_N_bounded b).
  rewrite Z.mod_small by lia.
  rewrite N2Z.id, Byte.of_to_N. reflexivity.
Qed.

Lemma byte_to_Z_inj (a b : byte) : byte_to_Z a = byte_to_Z b -> a = b.
Proof.
  intros H. rewrite <- (byte_of_to_Z a), <- (byte_of_to_Z b), H. reflexivity.
Qed.

(** ** Little-endian integers *)

Lemma le_encode_length (n : nat) (z : Z) : length (le_encode n z) = n.
Proof.
  revert z. induction n as [|n IH]; intros z; simpl; [reflexivity|].
  rewrite IH. reflexivity.
Qed.

Lemma le_decode_range (bs : list byte) : 0 <= le_decode bs < 256 ^ Z.of_nat (length bs).
Proof.
  induction bs as [|b bs IH].
  - simpl. lia.
  - cbn [le_decode length]. rewrite Nat2Z.inj_succ, Z.pow_succ_r by lia.
    pose proof (byte_to_Z_range b). lia.
Qed.

Lemma le_decode_app (xs ys : list byte) :
  le_decode (xs ++ ys) = le_decode xs + 256 ^ Z.of_nat (length xs) * le_decode ys.
Proof.
  induction xs as [|x xs IH].
  - cbn [le_decode length app]. change (Z.of_nat 0) with 0. rewrite Z.pow_0_r. lia.
  - cbn [le_decode length app]. rewrite IH, Nat2Z.inj_succ, Z.pow_succ_r by lia. ring.
Qed.

Lemma le_decode_encode (n : nat) (z : Z) :
  le_decode (le_encode n z) = z mod 256 ^ Z.of_nat n.
Proof.
  revert z. induction n as [|n IH]; intros z.
  - simpl. rewrite Z.mod_1_r. reflexivity.
  - cbn [le_encode le_decode]. rewrite IH, byte_to_of_Z.
    rewrite Nat2Z.inj_succ, Z.pow_succ_r by lia.
    rewrite Z.rem_mul_r by lia. reflexivity.
Qed.

Lemma le_encode_decode (bs : list byte) : le_encode (length bs) (le_decode bs) = bs.
Proof.
  induction bs as [|b bs IH]; [reflexivity|].
  cbn [length le_encode le_decode].
  pose proof (byte_to_Z_range b) as Hb.
  f_equal.
  - apply byte_to_Z_inj. rewrite byte_to_of_Z.
    rewrite (Z.mul_comm 256), Z.mod_add by lia.
    apply Z.mod_small; assumption.
  - rewrite (Z.mul_comm 256), Z.div_add by lia.
    rewrite Z.div_small by assumption. exact IH.
Qed.

Lemma le_decode_inj (xs ys : list byte) :
  length xs = length ys -> le_decode xs = le_decode ys -> xs = ys.
Proof.
  intros Hl Hd.
  rewrite <- (le_encode_decode xs), <- (le_encode_decode ys), Hl, Hd. reflexivity.
Qed.

(** ** Scalars *)

Lemma L_pos : 0 < L.
Proof. reflexivity. Qed.

Lemma L_below_2_253 : L < 2 ^ 253.
Proof. reflexivity. Qed.

Lemma sc_reduce_length (s : list byte) : length (sc_reduce s) = 32%nat.
Proof. apply le_encode_length. Qed.

Lemma sc_muladd_length (a b c : list byte) : length (sc_muladd a b c) = 32%nat.
Proof. apply le_encode_length. Qed.

Lemma le_decode_encode_scalar (z : Z) : 0 <= z < L -> le_decode (le_encode 32 z) = z.
Proof.
  intros Hz. rewrite le_decode_encode. apply Z.mod_small.
  pose proof L_below_2_253.
  assert (2 ^ 253 < 256 ^ Z.of_nat 32) by reflexivity. lia.
Qed.

Lemma sc_reduce_value (s : list byte) : le_decode (sc_reduce s) = le_decode s mod L.
Proof.
  unfold sc_reduce. apply le_decode_encode_scalar.
  apply Z.mod_pos_bound, L_pos.
Qed.

Lemma sc_muladd_value (a b c : list byte) :
  le_decode (sc_muladd a b c) = (le_decode a * le_decode b + le_decode c) mod L.
Proof.
  unfold sc_muladd. apply le_decode_encode_scalar.
  apply Z.mod_pos_bound, L_pos.
Qed.

Lemma sc_reduce_canonical (s : list byte) : canonical (sc_reduce s).
Proof.
  unfold canonical. rewrite sc_reduce_value. apply Z.mod_pos_bound, L_pos.
Qed.

Lemma sc_muladd_canonical (a b c : list byte) : canonical (sc_muladd a b c).
Proof.
  unfold canonical. rewrite sc_muladd_value. apply Z.mod_pos_bound, L_pos.
Qed.

(** ** The masks of lines 20-22 and the bits they stand for *)

Lemma and_248_clears_low3 (b : byte) :
  byte_and b 248 = Spec.clear_bit 2 (Spec.clear_bit 1 (Spec.clear_bit 0 b)).
Proof. destruct b; reflexivity. Qed.

Lemma and_63_or_64_clamps_top (b : byte) :
  byte_or (byte_and b 63) 64 = Spec.set_bit 6 (Spec.clear_bit 7 b).
Proof. destruct b; reflexivity. Qed.

(* ================================================================= *)
(** ** Symbolic execution of [sign] *)

(** Names the elements of a list of known length. *)
Ltac explode_step l H :=
  destruct l as [|? l]; [discriminate H|]; simpl in H; apply eq_add_S in H.
Ltac explode l H := repeat explode_step l H; destruct l; [clear H | discriminate H].

(** One step of the program on explicit buffers. *)
Ltac unfold_program :=
  cbv beta iota delta
      [key_derivation nonce_hash public_point commitment response sign
       sha512_ and_assign or_assign memmove memcpy ge_scalarmult_base_
       ge_p3_tobytes_ sc_reduce_ sc_muladd_
       bind ret fail load store record assign value overlap same_object andb
       get_object set_object get_var set_var
       caller az nonce hram buff A R calls
       base offset padd p_az p_nonce p_hram p_buff].
Ltac compute_access :=
  cbn [read write patch firstn skipn app length map Nat.add Nat.leb Nat.eqb orb].
Ltac run := repeat (unfold_program; compute_access).

(** Names the bytes of [t], a list of [n] bytes by [H]. *)
Ltac bytes_of t H :=
  let d := fresh "d" in
  let Hd := fresh "Hd" in
  pose proof H as Hd; set (d := t) in *; clearbody d; explode d Hd.

(** ** Lists and memory *)

Lemma read_ok_any (l : list byte) (i n : nat) :
  (n = 0 \/ i + n <= length l)%nat -> read l i n = Some (firstn n (skipn i l)).
Proof.
  intros [H | H]; unfold read.
  - subst n. reflexivity.
  - apply Nat.leb_le in H. rewrite H, orb_true_r. reflexivity.
Qed.

Lemma read_ok (l : list byte) (i n : nat) :
  (i + n <= length l)%nat -> read l i n = Some (firstn n (skipn i l)).
Proof. intros H. apply read_ok_any. right. exact H. Qed.

Lemma write_ok (l : list byte) (i : nat) (bs : list byte) :
  (i + length bs <= length l)%nat -> write l i bs = Some (patch l i bs).
Proof. intros H. unfold write. apply Nat.leb_le in H. rewrite H. reflexivity. Qed.

Lemma digest_at_length mem m : (m + 32 <= length mem)%nat -> length (digest_at mem m) = 32%nat.
Proof. intros H. unfold digest_at. rewrite length_firstn, length_skipn. lia. Qed.

Lemma update_length i f l : length (Spec.update i f l) = length l.
Proof.
  revert i. induction l as [|b l IH]; intros [|i]; cbn [Spec.update length]; try reflexivity.
  rewrite IH. reflexivity.
Qed.

Lemma patch_length l i bs : (i + length bs <= length l)%nat -> length (patch l i bs) = length l.
Proof.
  intros H. unfold patch. rewrite !length_app, length_firstn, length_skipn. lia.
Qed.

Lemma firstn_app_exact (a b : list byte) n : n = length a -> firstn n (a ++ b) = a.
Proof.
  intros ->. rewrite firstn_app, Nat.sub_diag, firstn_O, app_nil_r. apply firstn_all.
Qed.

Lemma skipn_app_exact (a b : list byte) n k :
  n = (length a + k)%nat -> skipn n (a ++ b) = skipn k b.
Proof.
  intros ->. rewrite skipn_app, skipn_all2 by lia.
  replace (length a + k - length a)%nat with k by lia. reflexivity.
Qed.

Lemma firstn_app_at n (a b : list byte) : length a = n -> firstn n (a ++ b) = a.
Proof. intros H. apply firstn_app_exact. symmetry; exact H. Qed.

Lemma skipn_app_at n (a b : list byte) : length a = n -> skipn n (a ++ b) = b.
Proof. intros H. rewrite (skipn_app_exact a b n 0) by lia. reflexivity. Qed.

Lemma skipn_app_past n k (a b : list byte) :
  length a = k -> (k <= n)%nat -> skipn n (a ++ b) = skipn (n - k) b.
Proof. intros H Hk. apply skipn_app_exact. lia. Qed.

Lemma patch_adjacent l i xs ys :
  (i + length xs <= length l)%nat ->
  patch (patch l i xs) (i + length xs) ys = patch l i (xs ++ ys).
Proof.
  intros H. unfold patch.
  assert (Hi : length (firstn i l ++ xs) = (i + length xs)%nat)
    by (rewrite length_app, length_firstn; lia).
  rewrite (app_assoc (firstn i l) xs).
  rewrite (firstn_app_exact (firstn i l ++ xs)) by lia.
  rewrite (skipn_app_exact (firstn i l ++ xs) _ _ (length ys)) by lia.
  rewrite skipn_skipn, length_app.
  rewrite <- !app_assoc.
  do 4 f_equal. lia.
Qed.

(** ** The five paragraphs of [sign], and the whole *)

Section Execution.
Context {C : Collaborators}.
Hypothesis sha512_length : forall x, length (sha512 x) = 64%nat.
Hypothesis ge_p3_tobytes_length : forall P, length (ge_p3_tobytes P) = 32%nat.

Lemma key_derivation_run_any mem a n h b PA PR cs pw pwlen :
  (pwlen = 0 \/ pw + pwlen <= length mem)%nat -> length a = 64%nat ->
  key_derivation (Ptr Caller pw) pwlen (State C mem a n h b PA PR cs)
  = Some (tt, State C mem (Spec.KeyDerivation (password_at mem pw pwlen)) n h b PA PR
                    (cs ++ [CallSha512 (password_at mem pw pwlen)])).
Proof.
  intros Hpw Ha.
  unfold Spec.KeyDerivation.
  unfold_program. rewrite (read_ok_any _ _ _ Hpw). fold (password_at mem pw pwlen).
  bytes_of (sha512 (password_at mem pw pwlen)) (sha512_length (password_at mem pw pwlen)).
  explode a Ha.
  run.
  cbn [Spec.update].
  rewrite and_248_clears_low3, and_63_or_64_clamps_top. reflexivity.
Qed.

Lemma key_derivation_run mem a n h b PA PR cs pw pwlen :
  (pw + pwlen <= length mem)%nat -> length a = 64%nat ->
  key_derivation (Ptr Caller pw) pwlen (State C mem a n h b PA PR cs)
  = Some (tt, State C mem (Spec.KeyDerivation (password_at mem pw pwlen)) n h b PA PR
                    (cs ++ [CallSha512 (password_at mem pw pwlen)])).
Proof. intros Hpw Ha. apply key_derivation_run_any; [right; exact Hpw | exact Ha]. Qed.

Lemma nonce_hash_run mem a n h b PA PR cs m :
  (m + 32 <= length mem)%nat ->
  length a = 64%nat -> length n = 64%nat -> length b = 96%nat ->
  nonce_hash (Ptr Caller m) (State C mem a n h b PA PR cs)
  = Some (tt, State C mem a (sha512 (skipn 32 a ++ digest_at mem m)) h
                    (firstn 32 b ++ skipn 32 a ++ digest_at mem m) PA PR
                    (cs ++ [CallSha512 (skipn 32 a ++ digest_at mem m)])).
Proof.
  intros Hm Ha Hn Hb.
  unfold_program. rewrite (read_ok _ _ _ Hm). fold (digest_at mem m).
  bytes_of (digest_at mem m) (digest_at_length mem m Hm).
  explode a Ha. explode n Hn. explode b Hb.
  run.
  match goal with |- context [sha512 ?x] => bytes_of (sha512 x) (sha512_length x) end.
  run. reflexivity.
Qed.

Lemma public_point_run mem a n h b PA PR cs :
  length a = 64%nat -> length b = 96%nat ->
  public_point (State C mem a n h b PA PR cs)
  = Some (tt, State C mem a n h
                    (firstn 32 b ++ ge_p3_tobytes (ge_scalarmult_base (firstn 32 a)) ++ skipn 64 b)
                    (ge_scalarmult_base (firstn 32 a)) PR
                    (cs ++ [CallScalarmultBase (firstn 32 a);
                            CallTobytes (ge_scalarmult_base (firstn 32 a))])).
Proof.
  intros Ha Hb.
  explode a Ha. explode b Hb.
  run.
  match goal with |- context [ge_p3_tobytes ?x] => bytes_of (ge_p3_tobytes x) (ge_p3_tobytes_length x) end.
  run. rewrite <- app_assoc. reflexivity.
Qed.

Lemma commitment_run mem a n h b PA PR cs sm :
  (sm + 32 <= length mem)%nat ->
  length n = 64%nat -> length b = 96%nat ->
  commitment (Ptr Caller sm) (State C mem a n h b PA PR cs)
  = Some (tt, State C (patch mem sm (ge_p3_tobytes (ge_scalarmult_base (sc_reduce n))))
                    a (sc_reduce n ++ skipn 32 n) h
                    (ge_p3_tobytes (ge_scalarmult_base (sc_reduce n)) ++ skipn 32 b)
                    PA (ge_scalarmult_base (sc_reduce n))
                    (cs ++ [CallScReduce n;
                            CallScalarmultBase (sc_reduce n);
                            CallTobytes (ge_scalarmult_base (sc_reduce n))])).
Proof.
  intros Hsm Hn Hb.
  explode n Hn. explode b Hb.
  run.
  match goal with |- context [sc_reduce ?x] => bytes_of (sc_reduce x) (sc_reduce_length x) end.
  run.
  match goal with |- context [ge_p3_tobytes ?x] => bytes_of (ge_p3_tobytes x) (ge_p3_tobytes_length x) end.
  run.
  rewrite write_ok by (cbn [length]; lia).
  rewrite <- !app_assoc. reflexivity.
Qed.

Lemma response_run mem a n h b PA PR cs sm :
  (sm + 64 <= length mem)%nat ->
  length a = 64%nat -> length n = 64%nat -> length h = 64%nat -> length b = 96%nat ->
  response (Ptr Caller sm) (State C mem a n h b PA PR cs)
  = Some (tt, State C (patch mem (sm + 32)
                         (sc_muladd (sc_reduce (sha512 b)) (firstn 32 a) (firstn 32 n)))
                    a n (sc_reduce (sha512 b) ++ skipn 32 (sha512 b)) b PA PR
                    (cs ++ [CallSha512 b;
                            CallScReduce (sha512 b);
                            CallScMuladd (sc_reduce (sha512 b)) (firstn 32 a) (firstn 32 n)])).
Proof.
  intros Hsm Ha Hn Hh Hb.
  explode a Ha. explode n Hn. explode h Hh. explode b Hb.
  run.
  match goal with |- context [sha512 ?x] => bytes_of (sha512 x) (sha512_length x) end.
  run.
  match goal with |- context [sc_reduce ?x] => bytes_of (sc_reduce x) (sc_reduce_length x) end.
  run.
  rewrite write_ok by (rewrite sc_muladd_length; lia).
  rewrite <- !app_assoc. reflexivity.
Qed.


Lemma KeyDerivation_length P : length (Spec.KeyDerivation P) = 64%nat.
Proof. unfold Spec.KeyDerivation. rewrite !update_length. apply sha512_length. Qed.

Ltac lengths :=
  repeat first
    [ rewrite length_app | rewrite length_firstn | rewrite length_skipn
    | rewrite sha512_length | rewrite ge_p3_tobytes_length
    | rewrite sc_reduce_length | rewrite sc_muladd_length
    | rewrite KeyDerivation_length | rewrite digest_at_length by assumption
    | rewrite patch_length by (repeat rewrite ge_p3_tobytes_length; lia) ];
  cbn [length]; try lia.

Lemma sign_run_final_any mem f sm m pw pwlen :
  accessible_call mem sm m pw pwlen -> frame_wf f ->
  sign_run mem f sm m pw pwlen
  = Some (final_state mem sm (digest_at mem m) (password_at mem pw pwlen)).
Proof.
  intros (Hsm & Hm & Hpw) (Ha & Hn & Hh & Hb).
  unfold sign_run, sign, enter.
  cbv beta delta [bind].
  rewrite key_derivation_run_any by assumption. cbv beta iota.
  rewrite nonce_hash_run by (try assumption; lengths). cbv beta iota.
  rewrite public_point_run by lengths. cbv beta iota.
  rewrite commitment_run by lengths. cbv beta iota.
  rewrite response_run by lengths.
  unfold final_state, Spec.Sign, Spec.Response, Spec.Challenge, Spec.ChallengeInput,
    Spec.CommitmentPoint, Spec.PublicPoint, Spec.EncodedMultiple, Spec.Nonce,
    Spec.NonceDerivation, Spec.prefixHalf, Spec.SecretScalar.
  set (K := Spec.KeyDerivation (password_at mem pw pwlen)).
  set (M := digest_at mem m).
  assert (HK : length K = 64%nat) by apply KeyDerivation_length.
  assert (HM : length M = 32%nat) by (apply digest_at_length; assumption).
  rewrite (firstn_app_at 32 (firstn 32 (buff0 f))) by lengths.
  rewrite (skipn_app_at 32 (firstn 32 (buff0 f))) by lengths.
  rewrite (skipn_app_past 64 32 (firstn 32 (buff0 f))) by lengths.
  cbn [Nat.sub].
  rewrite (skipn_app_at 32 (skipn 32 K)) by lengths.
  rewrite (firstn_app_at 32 (sc_reduce _)) by lengths.
  replace (sm + 32)%nat with (sm + length (ge_p3_tobytes (ge_scalarmult_base (sc_reduce (sha512 (skipn 32 K ++ M))))))%nat by lengths.
  rewrite patch_adjacent by lengths.
  reflexivity.
Qed.

Lemma valid_call_accessible mem sm m pw pwlen :
  valid_call mem sm m pw pwlen -> accessible_call mem sm m pw pwlen.
Proof. intros (Hsm & Hm & Hpw). repeat split; try assumption. right. exact Hpw. Qed.

Lemma sign_run_final mem f sm m pw pwlen :
  valid_call mem sm m pw pwlen -> frame_wf f ->
  sign_run mem f sm m pw pwlen
  = Some (final_state mem sm (digest_at mem m) (password_at mem pw pwlen)).
Proof. intros Hv Hf. apply sign_run_final_any; [apply valid_call_accessible; exact Hv | exact Hf]. Qed.

(** ** Sizes *)

Lemma CommitmentPoint_length M P : length (Spec.CommitmentPoint M P) = 32%nat.
Proof. apply ge_p3_tobytes_length. Qed.

Lemma PublicPoint_length P : length (Spec.PublicPoint P) = 32%nat.
Proof. apply ge_p3_tobytes_length. Qed.

Lemma Response_length M P : length (Spec.Response M P) = 32%nat.
Proof. apply sc_muladd_length. Qed.

Lemma Sign_length M P : length (Spec.Sign M P) = 64%nat.
Proof.
  unfold Spec.Sign. rewrite length_app, CommitmentPoint_length, Response_length. reflexivity.
Qed.

Lemma SecretScalar_length P : length (Spec.SecretScalar P) = 32%nat.
Proof. unfold Spec.SecretScalar. rewrite length_firstn, KeyDerivation_length. reflexivity. Qed.

Lemma prefixHalf_length P : length (Spec.prefixHalf P) = 32%nat.
Proof. unfold Spec.prefixHalf. rewrite length_skipn, KeyDerivation_length. reflexivity. Qed.

(** Clamping leaves the upper half of the password hash as it is. *)
Lemma prefixHalf_unclamped P : Spec.prefixHalf P = skipn 32 (sha512 P).
Proof.
  unfold Spec.prefixHalf, Spec.KeyDerivation.
  bytes_of (sha512 P) (sha512_length P).
  reflexivity.
Qed.

(** ** The caller's memory after the call *)

Lemma signature_at_patch mem sm sig :
  (sm + 64 <= length mem)%nat -> length sig = 64%nat ->
  signature_at (patch mem sm sig) sm = sig.
Proof.
  intros Hsm Hsig. unfold signature_at, patch.
  rewrite (skipn_app_at sm) by (rewrite length_firstn; lia).
  apply firstn_app_at. exact Hsig.
Qed.

Lemma patch_nth_error_outside mem sm sig i :
  (sm + length sig <= length mem)%nat ->
  (i < sm \/ sm + length sig <= i)%nat ->
  nth_error (patch mem sm sig) i = nth_error mem i.
Proof.
  intros Hsm Hi. unfold patch.
  assert (Hf : length (firstn sm mem) = sm) by (rewrite length_firstn; lia).
  destruct Hi as [Hi | Hi].
  - rewrite nth_error_app1 by lia. rewrite nth_error_firstn.
    rewrite (proj2 (Nat.ltb_lt _ _) Hi). reflexivity.
  - rewrite nth_error_app2 by lia.
    rewrite nth_error_app2 by lia.
    rewrite nth_error_skipn. f_equal. lia.
Qed.

(** A read of a region that lies wholly outside the patch. *)
Lemma read_region_patch mem sm sig i n :
  (sm + length sig <= length mem)%nat ->
  (i + n <= sm \/ sm + length sig <= i)%nat ->
  firstn n (skipn i (patch mem sm sig)) = firstn n (skipn i mem).
Proof.
  intros Hsm Hi.
  apply nth_error_ext. intros k.
  destruct (Nat.lt_ge_cases k n) as [Hk | Hk].
  - rewrite !nth_error_firstn, (proj2 (Nat.ltb_lt _ _) Hk).
    rewrite !nth_error_skipn.
    apply patch_nth_error_outside; [exact Hsm | lia].
  - rewrite !(proj2 (nth_error_None _ _)); [reflexivity | |];
      rewrite length_firstn; lia.
Qed.

(** A failed access is an access out of bounds, and only that. *)
Lemma load_in_bounds p n st bs st' :
  load p n st = Some (bs, st') ->
  (n = 0 \/ offset p + n <= length (get_object (base p) st))%nat /\ st' = st.
Proof.
  unfold load, read. intros H.
  destruct ((n =? 0) || (offset p + n <=? length (get_object (base p) st)))%nat eqn:E;
    [|discriminate].
  apply orb_true_iff in E. rewrite Nat.eqb_eq, Nat.leb_le in E.
  injection H as _ Hst. split; [exact E | symmetry; exact Hst].
Qed.

Lemma store_in_bounds p bs st u st' :
  store p bs st = Some (u, st') ->
  (offset p + length bs <= length (get_object (base p) st))%nat.
Proof.
  unfold store, write. intros H.
  destruct (offset p + length bs <=? length (get_object (base p) st))%nat eqn:E; [|discriminate].
  apply Nat.leb_le in E. exact E.
Qed.

(* ================================================================= *)
(** * The claims *)

(** C9.  [sign] is total under its preconditions.  For a password of
    any length (zero included, and then wherever [pw] points) and a
    digest of 32 bytes, with [sm], [m] and [pw] valid for 64, 32 and
    [pwlen] bytes, the routine returns; no access leaves a buffer (such
    an access is the only failure of the model); it has written at [sm]
    the 64 bytes of the signature of that digest under that password,
    commitment then response; and every buffer keeps its size. *)
Theorem C9_sign_total mem f sm m pw pwlen :
  accessible_call mem sm m pw pwlen -> frame_wf f ->
  exists st,
    sign_run mem f sm m pw pwlen = Some st /\
    signature_at (caller st) sm
    = Spec.Sign (digest_at mem m) (password_at mem pw pwlen) /\
    length (signature_at (caller st) sm) = 64%nat /\
    length (caller st) = length mem /\
    length (az st) = 64%nat /\ length (nonce st) = 64%nat /\
    length (hram st) = 64%nat /\ length (buff st) = 96%nat.
Proof.
  intros Hv Hf. pose proof Hv as (Hsm & Hm & Hpw).
  eexists. split; [apply sign_run_final_any; assumption|].
  cbn [final_state caller az nonce hram buff].
  rewrite signature_at_patch by (try apply Sign_length; assumption).
  repeat split.
  - apply Sign_length.
  - apply patch_length. rewrite Sign_length. exact Hsm.
  - apply KeyDerivation_length.
  - unfold Spec.Nonce, Spec.NonceDerivation. lengths.
  - unfold Spec.Challenge. lengths.
  - unfold Spec.ChallengeInput.
    rewrite !length_app, CommitmentPoint_length, PublicPoint_length.
    rewrite digest_at_length by assumption. reflexivity.
Qed.

(** C10, as the code has it.  [sign] writes to the caller's memory only
    in the 64 bytes at [sm]: in every invocation every other byte of it
    is as before, its size too; hence the digest at [m] and the password
    at [pw] are unchanged provided they do not overlap those 64 bytes.
    Where they do, as with [sm] = [m], the signature is written over
    them. *)
Theorem C10_frame mem f sm m pw pwlen :
  valid_call mem sm m pw pwlen -> frame_wf f ->
  exists st,
    sign_run mem f sm m pw pwlen = Some st /\
    length (caller st) = length mem /\
    (forall i, (i < sm \/ sm + 64 <= i)%nat ->
               nth_error (caller st) i = nth_error mem i) /\
    ((m + 32 <= sm \/ sm + 64 <= m)%nat ->
     digest_at (caller st) m = digest_at mem m) /\
    ((pw + pwlen <= sm \/ sm + 64 <= pw)%nat ->
     password_at (caller st) pw pwlen = password_at mem pw pwlen).
Proof.
  intros Hv Hf. pose proof Hv as (Hsm & Hm & Hpw).
  eexists. split; [apply sign_run_final; assumption|].
  cbn [final_state caller].
  set (sig := Spec.Sign _ _).
  assert (Hsig : length sig = 64%nat) by apply Sign_length.
  repeat split.
  - apply patch_length. lia.
  - intros i Hi. apply patch_nth_error_outside; lia.
  - intros Hd. unfold digest_at. apply read_region_patch; lia.
  - intros Hd. unfold password_at. apply read_region_patch; lia.
Qed.

(** C6.  [sign] is deterministic and has no hidden state.  Two
    invocations given the same digest bytes and the same password bytes
    leave the same 64 bytes at [sm], whatever the locals held on entry,
    wherever the arguments lie and whatever else the memory holds. *)
Theorem C6_deterministic mem1 f1 sm1 m1 pw1 mem2 f2 sm2 m2 pw2 pwlen :
  valid_call mem1 sm1 m1 pw1 pwlen -> frame_wf f1 ->
  valid_call mem2 sm2 m2 pw2 pwlen -> frame_wf f2 ->
  digest_at mem1 m1 = digest_at mem2 m2 ->
  password_at mem1 pw1 pwlen = password_at mem2 pw2 pwlen ->
  exists st1 st2,
    sign_run mem1 f1 sm1 m1 pw1 pwlen = Some st1 /\
    sign_run mem2 f2 sm2 m2 pw2 pwlen = Some st2 /\
    signature_at (caller st1) sm1 = signature_at (caller st2) sm2.
Proof.
  intros Hv1 Hf1 Hv2 Hf2 HM HP.
  pose proof Hv1 as (Hsm1 & _). pose proof Hv2 as (Hsm2 & _).
  do 2 eexists.
  split; [apply sign_run_final; assumption|].
  split; [apply sign_run_final; assumption|].
  cbn [final_state caller].
  rewrite !signature_at_patch by (try apply Sign_length; assumption).
  rewrite HM, HP. reflexivity.
Qed.

(** ** The clamped scalar *)

Lemma clear_low3_bits (b : byte) :
  let b' := Spec.clear_bit 2 (Spec.clear_bit 1 (Spec.clear_bit 0 b)) in
  Z.testbit (byte_to_Z b') 0 = false /\
  Z.testbit (byte_to_Z b') 1 = false /\
  Z.testbit (byte_to_Z b') 2 = false.
Proof. destruct b; repeat split; reflexivity. Qed.

Lemma clamp_top_bits (b : byte) :
  let b' := Spec.set_bit 6 (Spec.clear_bit 7 b) in
  Z.testbit (byte_to_Z b') 7 = false /\
  Z.testbit (byte_to_Z b') 6 = true /\
  64 <= byte_to_Z b' < 128.
Proof. destruct b; repeat split; (reflexivity || discriminate). Qed.

Lemma SecretScalar_first P :
  nth 0 (Spec.SecretScalar P) x00
  = Spec.clear_bit 2 (Spec.clear_bit 1 (Spec.clear_bit 0 (nth 0 (sha512 P) x00))).
Proof.
  unfold Spec.SecretScalar, Spec.KeyDerivation.
  bytes_of (sha512 P) (sha512_length P). reflexivity.
Qed.

Lemma SecretScalar_last P :
  nth 31 (Spec.SecretScalar P) x00
  = Spec.set_bit 6 (Spec.clear_bit 7 (nth 31 (sha512 P) x00)).
Proof.
  unfold Spec.SecretScalar, Spec.KeyDerivation.
  bytes_of (sha512 P) (sha512_length P). reflexivity.
Qed.

Lemma SecretScalar_split P :
  Spec.SecretScalar P
  = firstn 31 (Spec.SecretScalar P) ++ [nth 31 (Spec.SecretScalar P) x00].
Proof.
  unfold Spec.SecretScalar, Spec.KeyDerivation.
  bytes_of (sha512 P) (sha512_length P). reflexivity.
Qed.

Lemma SecretScalar_clamped P : clamped (Spec.SecretScalar P).
Proof.
  unfold clamped. rewrite SecretScalar_first, SecretScalar_last.
  pose proof (clear_low3_bits (nth 0 (sha512 P) x00)) as (H0 & H1 & H2).
  pose proof (clamp_top_bits (nth 31 (sha512 P) x00)) as (H7 & H6 & _).
  repeat split; assumption.
Qed.

(** As an integer the clamped scalar lies in [2^254, 2^255). *)
Lemma SecretScalar_range P : 2 ^ 254 <= le_decode (Spec.SecretScalar P) < 2 ^ 255.
Proof.
  rewrite SecretScalar_split, le_decode_app.
  assert (Hl : length (firstn 31 (Spec.SecretScalar P)) = 31%nat)
    by (rewrite length_firstn, SecretScalar_length; reflexivity).
  pose proof (le_decode_range (firstn 31 (Spec.SecretScalar P))) as Hlow.
  rewrite Hl in *.
  rewrite SecretScalar_last.
  pose proof (clamp_top_bits (nth 31 (sha512 P) x00)) as (_ & _ & Htop).
  cbv zeta in Htop.
  cbn [le_decode]. rewrite Z.mul_0_r, Z.add_0_r.
  change (256 ^ Z.of_nat 31) with (2 ^ 248) in *.
  change (2 ^ 254) with (64 * 2 ^ 248).
  change (2 ^ 255) with (128 * 2 ^ 248).
  set (t := byte_to_Z _) in *. set (lo := le_decode _) in *.
  assert (0 < 2 ^ 248) by reflexivity.
  set (w := 2 ^ 248) in *. nia.
Qed.

(** It is a multiple of 8, the cofactor of the curve. *)
Lemma clear_low3_multiple_of_8 (b : byte) :
  byte_to_Z (Spec.clear_bit 2 (Spec.clear_bit 1 (Spec.clear_bit 0 b))) mod 8 = 0.
Proof. destruct b; reflexivity. Qed.

Lemma SecretScalar_multiple_of_8 P : le_decode (Spec.SecretScalar P) mod 8 = 0.
Proof.
  assert (E : Spec.SecretScalar P
              = nth 0 (Spec.SecretScalar P) x00 :: skipn 1 (Spec.SecretScalar P)).
  { unfold Spec.SecretScalar, Spec.KeyDerivation.
    bytes_of (sha512 P) (sha512_length P). reflexivity. }
  rewrite E. cbn [le_decode]. rewrite SecretScalar_first.
  replace (256 * le_decode (skipn 1 (Spec.SecretScalar P)))
    with (32 * le_decode (skipn 1 (Spec.SecretScalar P)) * 8) by ring.
  rewrite Z.mod_add by lia. apply clear_low3_multiple_of_8.
Qed.

Lemma SecretScalar_not_canonical P : L <= le_decode (Spec.SecretScalar P).
Proof.
  pose proof (SecretScalar_range P). pose proof L_below_2_253.
  assert (2 ^ 253 < 2 ^ 254) by reflexivity. lia.
Qed.

(** C4.  The clamp invariants.  For every password, the empty one
    included, when lines 19-22 are done the first 32 bytes of [az] (the
    secret scalar) have the three low bits of byte 0 clear, bit 7 of
    byte 31 clear and bit 6 of byte 31 set, so that the scalar is a
    multiple of 8 between 2^254 and 2^255; they are the low half of
    the password hash with just these bits changed, and [sign] returns
    with [az] as those lines left it. *)
Theorem C4_clamp_invariants mem f sm m pw pwlen :
  valid_call mem sm m pw pwlen -> frame_wf f ->
  exists st,
    key_derivation (Ptr Caller pw) pwlen (enter mem f) = Some (tt, st) /\
    clamped (secret_scalar st) /\
    le_decode (secret_scalar st) mod 8 = 0 /\
    2 ^ 254 <= le_decode (secret_scalar st) < 2 ^ 255 /\
    secret_scalar st = Spec.SecretScalar (password_at mem pw pwlen) /\
    skipn 32 (az st) = skipn 32 (sha512 (password_at mem pw pwlen)) /\
    exists st', sign_run mem f sm m pw pwlen = Some st' /\ az st' = az st.
Proof.
  intros Hv (Ha & Hn & Hh & Hb). pose proof Hv as (Hsm & Hm & Hpw).
  eexists. split; [apply key_derivation_run; assumption|].
  unfold secret_scalar. cbn [az].
  split; [apply SecretScalar_clamped|].
  split; [apply SecretScalar_multiple_of_8|].
  split; [apply SecretScalar_range|].
  split; [reflexivity|].
  split; [apply prefixHalf_unclamped|].
  eexists. split; [apply sign_run_final; repeat split; assumption|].
  reflexivity.
Qed.

(** ** The scalars of a finished run *)

Lemma final_secret_scalar mem sm M P :
  secret_scalar (final_state mem sm M P) = Spec.SecretScalar P.
Proof. reflexivity. Qed.

Lemma final_nonce_scalar mem sm M P :
  nonce_scalar (final_state mem sm M P) = Spec.Nonce M P.
Proof.
  unfold nonce_scalar. cbn [final_state nonce].
  apply firstn_app_at. apply sc_reduce_length.
Qed.

Lemma final_challenge_scalar mem sm M P :
  challenge_scalar (final_state mem sm M P) = Spec.Challenge M P.
Proof.
  unfold challenge_scalar. cbn [final_state hram].
  apply firstn_app_at. apply sc_reduce_length.
Qed.

Lemma final_muladd_operands mem sm M P :
  muladd_operands (calls (final_state mem sm M P))
  = [(Spec.Challenge M P, Spec.SecretScalar P, Spec.Nonce M P)].
Proof. reflexivity. Qed.

Lemma final_scalarmult_inputs mem sm M P :
  scalarmult_inputs (calls (final_state mem sm M P))
  = [Spec.SecretScalar P; Spec.Nonce M P].
Proof. reflexivity. Qed.

Lemma final_sha512_inputs mem sm M P :
  sha512_inputs (calls (final_state mem sm M P))
  = [P; Spec.prefixHalf P ++ M; Spec.ChallengeInput M P].
Proof. reflexivity. Qed.

Lemma final_signature mem sm M P :
  (sm + 64 <= length mem)%nat ->
  signature_at (caller (final_state mem sm M P)) sm = Spec.Sign M P.
Proof.
  intros Hsm. cbn [final_state caller].
  apply signature_at_patch; [exact Hsm | apply Sign_length].
Qed.

Lemma Sign_commitment M P : firstn 32 (Spec.Sign M P) = Spec.CommitmentPoint M P.
Proof. apply firstn_app_at. apply CommitmentPoint_length. Qed.

Lemma Sign_response M P : skipn 32 (Spec.Sign M P) = Spec.Response M P.
Proof. apply skipn_app_at. apply CommitmentPoint_length. Qed.

Lemma Nonce_value M P :
  le_decode (Spec.Nonce M P) = le_decode (sha512 (Spec.prefixHalf P ++ M)) mod L.
Proof. apply sc_reduce_value. Qed.

Lemma Challenge_value M P :
  le_decode (Spec.Challenge M P) = le_decode (sha512 (Spec.ChallengeInput M P)) mod L.
Proof. apply sc_reduce_value. Qed.

Lemma Response_value M P :
  le_decode (Spec.Response M P)
  = (le_decode (Spec.Challenge M P) * le_decode (Spec.SecretScalar P)
     + le_decode (Spec.Nonce M P)) mod L.
Proof. apply sc_muladd_value. Qed.

(** C2.  The response scalar.  The last 32 bytes of the 64-byte output
    are (ChallengeScalar * SecretScalar + Nonce) mod L in little-endian
    form, where ChallengeScalar is the challenge hash reduced mod L,
    SecretScalar the clamped low half of the password hash and Nonce the
    nonce hash reduced mod L; these are the three operands the routine
    hands to [sc_muladd], whose result it stores at [sm + 32]. *)
Theorem C2_response_scalar mem f sm m pw pwlen :
  valid_call mem sm m pw pwlen -> frame_wf f ->
  exists st,
    sign_run mem f sm m pw pwlen = Some st /\
    let M := digest_at mem m in
    let P := password_at mem pw pwlen in
    let sig := signature_at (caller st) sm in
    let ChallengeScalar := le_decode (sha512 (Spec.ChallengeInput M P)) mod L in
    let SecretScalar := le_decode (Spec.SecretScalar P) in
    let Nonce := le_decode (sha512 (Spec.prefixHalf P ++ M)) mod L in
    length sig = 64%nat /\
    skipn 32 sig = le_encode 32 ((ChallengeScalar * SecretScalar + Nonce) mod L) /\
    le_decode (skipn 32 sig) = (ChallengeScalar * SecretScalar + Nonce) mod L /\
    muladd_operands (calls st) = [(challenge_scalar st, secret_scalar st, nonce_scalar st)] /\
    le_decode (challenge_scalar st) = ChallengeScalar /\
    le_decode (secret_scalar st) = SecretScalar /\
    le_decode (nonce_scalar st) = Nonce.
Proof.
  intros Hv Hf. pose proof Hv as (Hsm & Hm & Hpw).
  eexists. split; [apply sign_run_final; assumption|].
  cbv zeta.
  rewrite final_signature by exact Hsm.
  rewrite final_muladd_operands, final_challenge_scalar, final_secret_scalar,
    final_nonce_scalar.
  rewrite Sign_response, Sign_length.
  rewrite <- Challenge_value, <- Nonce_value.
  repeat split; try reflexivity.
  apply Response_value.
Qed.

(** C3.  The challenge.  The third and last hash of a run is taken
    over exactly the 96 bytes of [buff], which then hold the encoded
    commitment R in bytes 0..31, the encoded public point A in bytes
    32..63 (where the prefix was while the nonce was hashed) and the
    digest in bytes 64..95; the challenge scalar is that hash reduced
    mod L, and it is the first operand of [sc_muladd]. *)
Theorem C3_challenge_input mem f sm m pw pwlen :
  valid_call mem sm m pw pwlen -> frame_wf f ->
  exists st,
    sign_run mem f sm m pw pwlen = Some st /\
    let M := digest_at mem m in
    let P := password_at mem pw pwlen in
    let Rb := ge_p3_tobytes (R st) in
    let Ab := ge_p3_tobytes (A st) in
    sha512_inputs (calls st) = [P; skipn 32 (sha512 P) ++ M; Rb ++ Ab ++ M] /\
    buff st = Rb ++ Ab ++ M /\
    length Rb = 32%nat /\ length Ab = 32%nat /\ length M = 32%nat /\
    R st = ge_scalarmult_base (nonce_scalar st) /\
    A st = ge_scalarmult_base (secret_scalar st) /\
    Rb = firstn 32 (signature_at (caller st) sm) /\
    challenge_scalar st = sc_reduce (sha512 (Rb ++ Ab ++ M)) /\
    le_decode (challenge_scalar st) = le_decode (sha512 (Rb ++ Ab ++ M)) mod L /\
    exists y z, muladd_operands (calls st) = [(challenge_scalar st, y, z)].
Proof.
  intros Hv Hf. pose proof Hv as (Hsm & Hm & Hpw).
  eexists. split; [apply sign_run_final; assumption|].
  cbv zeta.
  rewrite final_signature by exact Hsm.
  rewrite final_sha512_inputs, final_muladd_operands, final_challenge_scalar,
    final_secret_scalar, final_nonce_scalar, Sign_commitment.
  rewrite prefixHalf_unclamped.
  cbn [final_state buff A R].
  repeat split; try reflexivity.
  - apply ge_p3_tobytes_length.
  - apply ge_p3_tobytes_length.
  - apply digest_at_length; exact Hm.
  - apply sc_reduce_value.
  - do 2 eexists. reflexivity.
Qed.

(** C5, as the code has it.  Of the three operands of the multiply-add
    the challenge scalar and the nonce are canonical (below L); the
    secret scalar is the clamped value, between 2^254 and 2^255 and so
    not below L: it is multiplied unreduced, and the result of the
    multiply-add, the response, is canonical.  So in no invocation are
    all three operands canonical. *)
Theorem C5_operands mem f sm m pw pwlen :
  valid_call mem sm m pw pwlen -> frame_wf f ->
  exists st h a r,
    sign_run mem f sm m pw pwlen = Some st /\
    muladd_operands (calls st) = [(h, a, r)] /\
    canonical h /\ canonical r /\
    2 ^ 254 <= le_decode a < 2 ^ 255 /\ L <= le_decode a /\
    canonical (skipn 32 (signature_at (caller st) sm)) /\
    ~ all_operands_canonical st.
Proof.
  intros Hv Hf. pose proof Hv as (Hsm & Hm & Hpw).
  do 4 eexists. split; [apply sign_run_final; assumption|].
  rewrite final_signature by exact Hsm.
  unfold all_operands_canonical.
  rewrite final_muladd_operands, Sign_response.
  split; [reflexivity|].
  split; [apply sc_reduce_canonical|].
  split; [apply sc_reduce_canonical|].
  split; [apply SecretScalar_range|].
  split; [apply SecretScalar_not_canonical|].
  split; [apply sc_muladd_canonical|].
  intros Hall.
  destruct (Hall _ _ _ (or_introl eq_refl)) as (_ & (_ & Ha) & _).
  pose proof (SecretScalar_not_canonical (password_at mem pw pwlen)). lia.
Qed.

(** C7.  The nonce.  It is the hash of the 64 bytes prefixHalf ||
    digest, reduced mod L, prefixHalf being the upper 32 bytes of the
    password hash; two invocations whose password hashes agree on those
    32 bytes and whose digests are equal derive the same nonce, whatever
    the passwords' lengths and other bytes. *)
Theorem C7_nonce mem1 f1 sm1 m1 pw1 pwlen1 mem2 f2 sm2 m2 pw2 pwlen2 :
  valid_call mem1 sm1 m1 pw1 pwlen1 -> frame_wf f1 ->
  valid_call mem2 sm2 m2 pw2 pwlen2 -> frame_wf f2 ->
  skipn 32 (sha512 (password_at mem1 pw1 pwlen1))
  = skipn 32 (sha512 (password_at mem2 pw2 pwlen2)) ->
  digest_at mem1 m1 = digest_at mem2 m2 ->
  exists st1 st2,
    sign_run mem1 f1 sm1 m1 pw1 pwlen1 = Some st1 /\
    sign_run mem2 f2 sm2 m2 pw2 pwlen2 = Some st2 /\
    let prefix := skipn 32 (sha512 (password_at mem1 pw1 pwlen1)) in
    let M := digest_at mem1 m1 in
    length (prefix ++ M) = 64%nat /\
    nonce_scalar st1 = sc_reduce (sha512 (prefix ++ M)) /\
    le_decode (nonce_scalar st1) = le_decode (sha512 (prefix ++ M)) mod L /\
    nonce_scalar st1 = nonce_scalar st2.
Proof.
  intros Hv1 Hf1 Hv2 Hf2 Hprefix HM.
  pose proof Hv1 as (Hsm1 & Hm1 & Hpw1).
  do 2 eexists.
  split; [apply sign_run_final; assumption|].
  split; [apply sign_run_final; assumption|].
  cbv zeta.
  rewrite !final_nonce_scalar.
  unfold Spec.Nonce, Spec.NonceDerivation.
  rewrite !prefixHalf_unclamped, <- Hprefix, <- HM.
  repeat split; try reflexivity.
  - rewrite length_app, length_skipn, sha512_length, digest_at_length by assumption.
    reflexivity.
  - apply sc_reduce_value.
Qed.

(* ================================================================= *)
(** * Further properties of [sign] *)

(** ** Accesses that fail *)

Lemma read_fail (l : list byte) (i n : nat) :
  n <> 0%nat -> (length l < i + n)%nat -> read l i n = None.
Proof.
  intros Hn H. unfold read.
  destruct ((n =? 0) || (i + n <=? length l))%nat eqn:E; [|reflexivity].
  apply orb_true_iff in E. rewrite Nat.eqb_eq, Nat.leb_le in E. lia.
Qed.

Lemma write_fail (l : list byte) (i : nat) (bs : list byte) :
  (length l < i + length bs)%nat -> write l i bs = None.
Proof.
  intros H. unfold write.
  destruct (i + length bs <=? length l)%nat eqn:E; [|reflexivity].
  apply Nat.leb_le in E. lia.
Qed.

Lemma key_derivation_fails mem a n h b PA PR cs pw pwlen :
  pwlen <> 0%nat -> (length mem < pw + pwlen)%nat ->
  key_derivation (Ptr Caller pw) pwlen (State C mem a n h b PA PR cs) = None.
Proof.
  intros Hlen Hpw. unfold_program. rewrite (read_fail _ _ _ Hlen Hpw). reflexivity.
Qed.

Lemma nonce_hash_fails mem a n h b PA PR cs m :
  (length mem < m + 32)%nat ->
  nonce_hash (Ptr Caller m) (State C mem a n h b PA PR cs) = None.
Proof.
  intros Hm. unfold_program. rewrite (read_fail _ _ 32 ltac:(discriminate) Hm). reflexivity.
Qed.

Lemma commitment_fails mem a n h b PA PR cs sm :
  (length mem < sm + 32)%nat ->
  length n = 64%nat -> length b = 96%nat ->
  commitment (Ptr Caller sm) (State C mem a n h b PA PR cs) = None.
Proof.
  intros Hsm Hn Hb.
  explode n Hn. explode b Hb.
  run.
  match goal with |- context [sc_reduce ?x] => bytes_of (sc_reduce x) (sc_reduce_length x) end.
  run.
  match goal with |- context [ge_p3_tobytes ?x] => bytes_of (ge_p3_tobytes x) (ge_p3_tobytes_length x) end.
  run.
  rewrite write_fail by (cbn [length]; lia).
  reflexivity.
Qed.

Lemma response_fails mem a n h b PA PR cs sm :
  (length mem < sm + 64)%nat ->
  length a = 64%nat -> length n = 64%nat -> length h = 64%nat -> length b = 96%nat ->
  response (Ptr Caller sm) (State C mem a n h b PA PR cs) = None.
Proof.
  intros Hsm Ha Hn Hh Hb.
  explode a Ha. explode n Hn. explode h Hh. explode b Hb.
  run.
  match goal with |- context [sha512 ?x] => bytes_of (sha512 x) (sha512_length x) end.
  run.
  match goal with |- context [sc_reduce ?x] => bytes_of (sc_reduce x) (sc_reduce_length x) end.
  run.
  rewrite write_fail by (rewrite sc_muladd_length; lia).
  reflexivity.
Qed.

Lemma sign_run_invalid mem f sm m pw pwlen :
  frame_wf f -> ~ accessible_call mem sm m pw pwlen ->
  sign_run mem f sm m pw pwlen = None.
Proof.
  intros (Ha & Hn & Hh & Hb) Hinv.
  unfold sign_run, sign, enter.
  cbv beta delta [bind].
  assert (Hpw : (pwlen = 0 \/ pw + pwlen <= length mem)%nat
                \/ (pwlen <> 0 /\ length mem < pw + pwlen)%nat) by lia.
  destruct Hpw as [Hpw | (Hlen & Hpw)];
    [| rewrite key_derivation_fails by assumption; reflexivity].
  rewrite key_derivation_run_any by assumption. cbv beta iota.
  destruct (Nat.le_gt_cases (m + 32) (length mem)) as [Hm | Hm];
    [| rewrite nonce_hash_fails by exact Hm; reflexivity].
  rewrite nonce_hash_run by (try assumption; lengths). cbv beta iota.
  rewrite public_point_run by lengths. cbv beta iota.
  destruct (Nat.le_gt_cases (sm + 32) (length mem)) as [Hsm | Hsm];
    [| rewrite commitment_fails by lengths; reflexivity].
  rewrite commitment_run by lengths. cbv beta iota.
  assert (Hsm64 : (length mem < sm + 64)%nat).
  { apply Nat.lt_nge. intros Hle. apply Hinv. repeat split; assumption. }
  rewrite response_fails by lengths.
  reflexivity.
Qed.

(** X1.  The bounds [sign] needs.  With locals of the declared sizes a
    run returns exactly when [sm] is valid for 64 bytes, [m] for 32
    and, unless [pwlen] is 0, [pw] for [pwlen]: the routine reads the
    whole password and the whole digest and writes all 64 bytes of the
    signature, so an argument one byte short makes an access leave the
    memory; of an empty password it reads nothing, and [pw] may then
    point anywhere. *)
Theorem sign_returns_iff_valid mem f sm m pw pwlen :
  frame_wf f ->
  (sign_run mem f sm m pw pwlen <> None <-> accessible_call mem sm m pw pwlen).
Proof.
  intros Hf. split.
  - intros Hrun.
    assert (Hdec : accessible_call mem sm m pw pwlen \/ ~ accessible_call mem sm m pw pwlen)
      by (unfold accessible_call; lia).
    destruct Hdec as [Hv | Hinv]; [exact Hv|].
    exfalso. apply Hrun. apply sign_run_invalid; assumption.
  - intros Hv. rewrite (sign_run_final_any _ _ _ _ _ _ Hv Hf). discriminate.
Qed.

(** ** What a run does not depend on *)

(** X2.  No indeterminate byte is used.  Whatever the locals held on
    entry, the run ends in the same state (the caller's memory, every
    local, and every input handed to a collaborator, in order): each
    byte of a local is written before it is read. *)
Theorem sign_ignores_entry_locals mem f1 f2 sm m pw pwlen :
  valid_call mem sm m pw pwlen -> frame_wf f1 -> frame_wf f2 ->
  exists st,
    sign_run mem f1 sm m pw pwlen = Some st /\
    sign_run mem f2 sm m pw pwlen = Some st.
Proof.
  intros Hv Hf1 Hf2. eexists.
  split; apply sign_run_final; assumption.
Qed.

(** X3.  The public point is the password's alone.  Two invocations
    with the same password bytes compute the same secret scalar and the
    same point A, and hash the same 32 bytes of A into the challenge,
    whatever the two digests are. *)
Theorem public_point_of_password mem1 f1 sm1 m1 pw1 mem2 f2 sm2 m2 pw2 pwlen :
  valid_call mem1 sm1 m1 pw1 pwlen -> frame_wf f1 ->
  valid_call mem2 sm2 m2 pw2 pwlen -> frame_wf f2 ->
  password_at mem1 pw1 pwlen = password_at mem2 pw2 pwlen ->
  exists st1 st2,
    sign_run mem1 f1 sm1 m1 pw1 pwlen = Some st1 /\
    sign_run mem2 f2 sm2 m2 pw2 pwlen = Some st2 /\
    secret_scalar st1 = secret_scalar st2 /\
    A st1 = A st2 /\
    firstn 32 (skipn 32 (buff st1)) = ge_p3_tobytes (A st1) /\
    firstn 32 (skipn 32 (buff st1)) = firstn 32 (skipn 32 (buff st2)).
Proof.
  intros Hv1 Hf1 Hv2 Hf2 HP.
  do 2 eexists.
  split; [apply sign_run_final; assumption|].
  split; [apply sign_run_final; assumption|].
  rewrite !final_secret_scalar.
  cbn [final_state A buff]. unfold Spec.ChallengeInput.
  rewrite !(skipn_app_at 32) by apply CommitmentPoint_length.
  rewrite !(firstn_app_at 32) by apply PublicPoint_length.
  rewrite HP. repeat split; reflexivity.
Qed.

(** X4.  The password enters through its hash only.  Two invocations
    whose passwords have the same hash, on the same digest, leave the
    same signature and the same locals, and hand the same inputs to
    every collaborator call after the first. *)
Theorem password_through_hash_only mem1 f1 sm1 m1 pw1 pwlen1 mem2 f2 sm2 m2 pw2 pwlen2 :
  valid_call mem1 sm1 m1 pw1 pwlen1 -> frame_wf f1 ->
  valid_call mem2 sm2 m2 pw2 pwlen2 -> frame_wf f2 ->
  sha512 (password_at mem1 pw1 pwlen1) = sha512 (password_at mem2 pw2 pwlen2) ->
  digest_at mem1 m1 = digest_at mem2 m2 ->
  exists st1 st2,
    sign_run mem1 f1 sm1 m1 pw1 pwlen1 = Some st1 /\
    sign_run mem2 f2 sm2 m2 pw2 pwlen2 = Some st2 /\
    signature_at (caller st1) sm1 = signature_at (caller st2) sm2 /\
    az st1 = az st2 /\ nonce st1 = nonce st2 /\
    hram st1 = hram st2 /\ buff st1 = buff st2 /\
    tl (calls st1) = tl (calls st2).
Proof.
  intros Hv1 Hf1 Hv2 Hf2 HH HM.
  pose proof Hv1 as (Hsm1 & _). pose proof Hv2 as (Hsm2 & _).
  assert (HK : Spec.KeyDerivation (password_at mem1 pw1 pwlen1)
               = Spec.KeyDerivation (password_at mem2 pw2 pwlen2))
    by (unfold Spec.KeyDerivation; rewrite HH; reflexivity).
  do 2 eexists.
  split; [apply sign_run_final; assumption|].
  split; [apply sign_run_final; assumption|].
  rewrite !final_signature by assumption.
  cbn [final_state az nonce hram buff calls tl].
  unfold Spec.Sign, Spec.Response, Spec.Challenge, Spec.ChallengeInput,
    Spec.CommitmentPoint, Spec.PublicPoint, Spec.EncodedMultiple, Spec.Nonce,
    Spec.NonceDerivation, Spec.prefixHalf, Spec.SecretScalar.
  rewrite HK, HM. repeat split; reflexivity.
Qed.

(** ** The shape of a run *)

(** X5.  Straight-line code.  Every invocation makes the same ten
    collaborator calls in the same order, on inputs of the same sizes,
    the password hash apart: three hashes (of [pwlen], 64 and 96
    bytes), two multiplications of the basepoint by 32-byte scalars,
    two encodings, two reductions of 64 bytes and one multiply-add of
    three 32-byte operands.  Nothing but [pwlen] decides what is called
    or on how many bytes. *)
Theorem sign_call_shape mem f sm m pw pwlen :
  valid_call mem sm m pw pwlen -> frame_wf f ->
  exists st,
    sign_run mem f sm m pw pwlen = Some st /\
    map shape_of (calls st)
    = [ ShapeSha512 pwlen;
        ShapeSha512 64;
        ShapeScalarmultBase 32;
        ShapeTobytes;
        ShapeScReduce 64;
        ShapeScalarmultBase 32;
        ShapeTobytes;
        ShapeSha512 96;
        ShapeScReduce 64;
        ShapeScMuladd 32 32 32 ].
Proof.
  intros Hv Hf. pose proof Hv as (Hsm & Hm & Hpw).
  eexists. split; [apply sign_run_final; assumption|].
  cbn [final_state calls map shape_of].
  assert (HP : length (password_at mem pw pwlen) = pwlen)
    by (unfold password_at; rewrite length_firstn, length_skipn; lia).
  assert (HM : length (digest_at mem m) = 32%nat) by (apply digest_at_length; exact Hm).
  unfold Spec.ChallengeInput.
  rewrite !length_app, !sha512_length, HP, HM.
  rewrite prefixHalf_length, SecretScalar_length, CommitmentPoint_length, PublicPoint_length.
  unfold Spec.Nonce, Spec.NonceDerivation, Spec.Challenge.
  rewrite !sc_reduce_length. reflexivity.
Qed.

(* ================================================================= *)
(** ** The group of the curve *)

(** The contract of ge.h: the points form a commutative group under
    [ge_add], up to [ge_eq]; the basepoint has order L;
    [ge_scalarmult_base] multiplies the basepoint by a scalar below
    2^255; the encoding of a point is canonical, one byte string for
    each point and for no other. *)
Hypothesis ge_eq_equiv : Equivalence ge_eq.
Hypothesis ge_add_proper : Proper (ge_eq ==> ge_eq ==> ge_eq) ge_add.
Hypothesis ge_add_assoc :
  forall P Q S, ge_eq (ge_add P (ge_add Q S)) (ge_add (ge_add P Q) S).
Hypothesis ge_add_comm : forall P Q, ge_eq (ge_add P Q) (ge_add Q P).
Hypothesis ge_add_zero : forall P, ge_eq (ge_add ge_zero P) P.
Hypothesis ge_base_order : ge_eq (ge_scalarmult L ge_base) ge_zero.
Hypothesis ge_scalarmult_base_spec :
  forall a, length a = 32%nat -> le_decode a < 2 ^ 255 ->
            ge_eq (ge_scalarmult_base a) (ge_scalarmult (le_decode a) ge_base).
Hypothesis ge_p3_tobytes_proper :
  forall P Q, ge_eq P Q -> ge_p3_tobytes P = ge_p3_tobytes Q.
Hypothesis ge_p3_tobytes_inj :
  forall P Q, ge_p3_tobytes P = ge_p3_tobytes Q -> ge_eq P Q.

Lemma iter_op_succ_eq (p : positive) (P : ge_p3) :
  ge_eq (Pos.iter_op ge_add (Pos.succ p) P) (ge_add P (Pos.iter_op ge_add p P)).
Proof.
  revert P. induction p as [p IH | p IH |]; intros P; cbn [Pos.succ Pos.iter_op].
  - rewrite IH. symmetry. apply ge_add_assoc.
  - reflexivity.
  - reflexivity.
Qed.

Lemma iter_op_proper (p : positive) (P Q : ge_p3) :
  ge_eq P Q -> ge_eq (Pos.iter_op ge_add p P) (Pos.iter_op ge_add p Q).
Proof.
  revert P Q. induction p as [p IH | p IH |]; intros P Q H; cbn [Pos.iter_op].
  - apply ge_add_proper; [exact H|]. apply IH. apply ge_add_proper; exact H.
  - apply IH. apply ge_add_proper; exact H.
  - exact H.
Qed.

Lemma iter_op_add (p q : positive) (P : ge_p3) :
  ge_eq (Pos.iter_op ge_add (p + q) P)
        (ge_add (Pos.iter_op ge_add p P) (Pos.iter_op ge_add q P)).
Proof.
  induction p as [|p IH] using Pos.peano_ind.
  - rewrite Pos.add_1_l. apply iter_op_succ_eq.
  - rewrite Pos.add_succ_l.
    rewrite !iter_op_succ_eq, IH. apply ge_add_assoc.
Qed.

Lemma iter_op_mul (p q : positive) (P : ge_p3) :
  ge_eq (Pos.iter_op ge_add (p * q) P)
        (Pos.iter_op ge_add p (Pos.iter_op ge_add q P)).
Proof.
  induction p as [|p IH] using Pos.peano_ind.
  - rewrite Pos.mul_1_l. reflexivity.
  - rewrite Pos.mul_succ_l.
    rewrite iter_op_add, iter_op_succ_eq, IH. reflexivity.
Qed.

Lemma iter_op_zero (p : positive) : ge_eq (Pos.iter_op ge_add p ge_zero) ge_zero.
Proof.
  induction p as [|p IH] using Pos.peano_ind.
  - reflexivity.
  - rewrite iter_op_succ_eq, IH. apply ge_add_zero.
Qed.

Lemma ge_add_zero_r (P : ge_p3) : ge_eq (ge_add P ge_zero) P.
Proof. rewrite ge_add_comm. apply ge_add_zero. Qed.

Lemma ge_scalarmult_proper (n : Z) (P Q : ge_p3) :
  ge_eq P Q -> ge_eq (ge_scalarmult n P) (ge_scalarmult n Q).
Proof.
  intros H. destruct n as [|p|p]; cbn [ge_scalarmult]; try reflexivity.
  apply iter_op_proper; exact H.
Qed.

Lemma ge_scalarmult_add (m n : Z) (P : ge_p3) :
  0 <= m -> 0 <= n ->
  ge_eq (ge_scalarmult (m + n) P) (ge_add (ge_scalarmult m P) (ge_scalarmult n P)).
Proof.
  intros Hm Hn. destruct m as [|p|p]; [| |lia]; destruct n as [|q|q]; try lia.
  - cbn. symmetry. apply ge_add_zero.
  - cbn. symmetry. apply ge_add_zero.
  - cbn. symmetry. apply ge_add_zero_r.
  - cbn [Z.add ge_scalarmult]. apply iter_op_add.
Qed.

Lemma ge_scalarmult_zero (n : Z) : ge_eq (ge_scalarmult n ge_zero) ge_zero.
Proof.
  destruct n as [|p|p]; cbn [ge_scalarmult]; try reflexivity. apply iter_op_zero.
Qed.

Lemma ge_scalarmult_mul (m n : Z) (P : ge_p3) :
  0 <= m -> 0 <= n ->
  ge_eq (ge_scalarmult (m * n) P) (ge_scalarmult m (ge_scalarmult n P)).
Proof.
  intros Hm Hn. destruct m as [|p|p]; [| |lia]; destruct n as [|q|q]; try lia.
  - reflexivity.
  - reflexivity.
  - cbn. symmetry. apply iter_op_zero.
  - cbn [Z.mul ge_scalarmult]. apply iter_op_mul.
Qed.

(** Scalars act on the basepoint modulo its order. *)
Lemma ge_scalarmult_base_mod (n : Z) :
  0 <= n -> ge_eq (ge_scalarmult n ge_base) (ge_scalarmult (n mod L) ge_base).
Proof.
  intros Hn. pose proof L_pos as HL.
  pose proof (Z.mod_pos_bound n L HL) as Hr.
  assert (Hq : 0 <= n / L) by (apply Z.div_pos; lia).
  rewrite (Z.div_mod n L) at 1 by lia.
  rewrite ge_scalarmult_add by nia.
  rewrite (Z.mul_comm L), ge_scalarmult_mul by lia.
  rewrite (ge_scalarmult_proper _ _ _ ge_base_order).
  rewrite ge_scalarmult_zero. apply ge_add_zero.
Qed.

Lemma ge_scalarmult_base_congr (x y : Z) :
  0 <= x -> 0 <= y -> x mod L = y mod L ->
  ge_eq (ge_scalarmult x ge_base) (ge_scalarmult y ge_base).
Proof.
  intros Hx Hy H.
  rewrite (ge_scalarmult_base_mod x), (ge_scalarmult_base_mod y), H by assumption.
  reflexivity.
Qed.

(** The signing equation in the group: if s = k*a + r modulo L, then
    [s]B = R + [k]A for A = [a]B and R = [r]B. *)
Lemma signing_equation (k a r s : Z) (PA PR : ge_p3) :
  0 <= k -> 0 <= a -> 0 <= r -> 0 <= s ->
  s mod L = (k * a + r) mod L ->
  ge_eq PA (ge_scalarmult a ge_base) ->
  ge_eq PR (ge_scalarmult r ge_base) ->
  ge_eq (ge_scalarmult s ge_base) (ge_add PR (ge_scalarmult k PA)).
Proof.
  intros Hk Ha Hr Hs Hmod HA HR.
  rewrite HR, (ge_scalarmult_proper k _ _ HA).
  rewrite <- ge_scalarmult_mul by assumption.
  rewrite <- ge_scalarmult_add by nia.
  apply ge_scalarmult_base_congr; [assumption | nia |].
  rewrite Hmod. f_equal. ring.
Qed.

Lemma PublicPoint_encodes P :
  Spec.PublicPoint P
  = ge_p3_tobytes (ge_scalarmult (le_decode (Spec.SecretScalar P)) ge_base).
Proof.
  unfold Spec.PublicPoint, Spec.EncodedMultiple.
  apply ge_p3_tobytes_proper, ge_scalarmult_base_spec.
  - apply SecretScalar_length.
  - apply SecretScalar_range.
Qed.

Lemma CommitmentPoint_encodes M P :
  Spec.CommitmentPoint M P
  = ge_p3_tobytes (ge_scalarmult (le_decode (Spec.Nonce M P)) ge_base).
Proof.
  unfold Spec.CommitmentPoint, Spec.EncodedMultiple.
  apply ge_p3_tobytes_proper, ge_scalarmult_base_spec.
  - apply sc_reduce_length.
  - pose proof (sc_reduce_canonical (sha512 (Spec.prefixHalf P ++ M))) as Hc.
    unfold canonical in Hc. fold (Spec.NonceDerivation (Spec.prefixHalf P) M) in Hc.
    fold (Spec.Nonce M P) in Hc.
    pose proof L_below_2_253. assert (2 ^ 253 < 2 ^ 255) by reflexivity. lia.
Qed.

Lemma bytes_eqb_eq (x y : list byte) : bytes_eqb x y = true -> x = y.
Proof.
  unfold bytes_eqb. intros H. apply andb_true_iff in H. destruct H as (Hl & Hd).
  apply Nat.eqb_eq in Hl. apply Z.eqb_eq in Hd.
  apply le_decode_inj; assumption.
Qed.

(** The computed check is the check. *)
Lemma verifies_with_sound (PA PR : ge_p3) (Ab M sig : list byte) :
  verifies_with PA PR Ab M sig = true -> Verifies Ab M sig.
Proof.
  unfold verifies_with, Verifies. intros H.
  repeat (apply andb_true_iff in H; destruct H as (H & ?)).
  split; [apply Nat.eqb_eq; assumption|].
  split; [apply Z.ltb_lt; assumption|].
  exists PA, PR. unfold decodes_to.
  split; [apply bytes_eqb_eq; assumption|].
  split; [apply bytes_eqb_eq; assumption|].
  apply ge_p3_tobytes_inj, bytes_eqb_eq. assumption.
Qed.

(** C8.  The layout of the output.  The 64 bytes at [sm] are
    CommitmentPoint || ResponseScalar, 32 bytes each; the first 32 are
    the encoding of the point R, which [ge_scalarmult_base] was given
    the reduced nonce to compute: the encoding of the basepoint
    multiplied by the nonce hash reduced mod L. *)
Theorem C8_signature_layout mem f sm m pw pwlen :
  valid_call mem sm m pw pwlen -> frame_wf f ->
  exists st,
    sign_run mem f sm m pw pwlen = Some st /\
    let M := digest_at mem m in
    let P := password_at mem pw pwlen in
    let sig := signature_at (caller st) sm in
    let r := le_decode (sha512 (skipn 32 (sha512 P) ++ M)) mod L in
    length sig = 64%nat /\
    sig = Spec.CommitmentPoint M P ++ Spec.Response M P /\
    length (Spec.CommitmentPoint M P) = 32%nat /\
    length (Spec.Response M P) = 32%nat /\
    le_decode (nonce_scalar st) = r /\
    scalarmult_inputs (calls st) = [secret_scalar st; nonce_scalar st] /\
    firstn 32 sig = ge_p3_tobytes (R st) /\
    firstn 32 sig = ge_p3_tobytes (ge_scalarmult r ge_base) /\
    skipn 32 sig = sc_muladd (challenge_scalar st) (secret_scalar st) (nonce_scalar st).
Proof.
  intros Hv Hf. pose proof Hv as (Hsm & Hm & Hpw).
  eexists. split; [apply sign_run_final; assumption|].
  cbv zeta.
  rewrite final_signature by exact Hsm.
  rewrite final_scalarmult_inputs.
  rewrite final_challenge_scalar, final_secret_scalar, final_nonce_scalar.
  cbn [final_state R].
  rewrite Sign_commitment, Sign_response, Sign_length.
  rewrite <- prefixHalf_unclamped, <- Nonce_value.
  repeat split; try reflexivity;
    first [ apply CommitmentPoint_length | apply Response_length
          | apply CommitmentPoint_encodes ].
Qed.

(** C1.  The signature verifies.  With R the first 32 bytes of the
    output, s the scalar in its last 32 bytes, a the clamped secret
    scalar, A = EncodePoint(ScalarMultiplyBase(a)) and r the reduced
    nonce: R encodes [r]B; s = (H(R || A || M) mod L) * a + r mod L;
    [s]B = R + [h]A in the group; and the check of a verifier with
    public key A succeeds, in its plain and in its cofactored form,
    whichever points R and A decode to. *)
Theorem C1_signature_verifies mem f sm m pw pwlen :
  valid_call mem sm m pw pwlen -> frame_wf f ->
  exists st,
    sign_run mem f sm m pw pwlen = Some st /\
    let M := digest_at mem m in
    let P := password_at mem pw pwlen in
    let sig := signature_at (caller st) sm in
    let Rb := firstn 32 sig in
    let s := le_decode (skipn 32 sig) in
    let a := le_decode (Spec.SecretScalar P) in
    let r := le_decode (sha512 (Spec.prefixHalf P ++ M)) mod L in
    let PA := ge_scalarmult a ge_base in
    let Ab := ge_p3_tobytes PA in
    let k := le_decode (sha512 (Rb ++ Ab ++ M)) in
    Ab = ge_p3_tobytes (ge_scalarmult_base (Spec.SecretScalar P)) /\
    Rb = ge_p3_tobytes (ge_scalarmult r ge_base) /\
    s = ((k mod L) * a + r) mod L /\
    ge_eq (ge_scalarmult s ge_base)
          (ge_add (ge_scalarmult r ge_base) (ge_scalarmult (k mod L) PA)) /\
    (forall PA' PR', decodes_to Ab PA' -> decodes_to Rb PR' ->
       ge_eq (ge_scalarmult s ge_base) (ge_add PR' (ge_scalarmult k PA'))) /\
    Verifies Ab M sig /\
    VerifiesCofactored Ab M sig.
Proof.
  intros Hv Hf. pose proof Hv as (Hsm & Hm & Hpw).
  eexists. split; [apply sign_run_final; assumption|].
  cbv zeta.
  rewrite final_signature by exact Hsm.
  rewrite Sign_commitment, Sign_response.
  set (M := digest_at mem m). set (P := password_at mem pw pwlen).
  rewrite <- Nonce_value, <- PublicPoint_encodes.
  fold (Spec.EncodedMultiple (Spec.SecretScalar P)). fold (Spec.PublicPoint P).
  fold (Spec.ChallengeInput M P).
  set (a := le_decode (Spec.SecretScalar P)).
  set (r := le_decode (Spec.Nonce M P)).
  set (k := le_decode (sha512 (Spec.ChallengeInput M P))).
  set (s := le_decode (Spec.Response M P)).
  assert (Ha : 0 <= a) by (pose proof (SecretScalar_range P); unfold a; lia).
  assert (Hr : 0 <= r) by apply le_decode_range.
  assert (Hk : 0 <= k) by apply le_decode_range.
  assert (Hs : 0 <= s < L) by apply sc_muladd_canonical.
  assert (Es : s = (k mod L * a + r) mod L).
  { unfold s. rewrite Response_value, Challenge_value. reflexivity. }
  assert (Hmod1 : s mod L = (k mod L * a + r) mod L).
  { rewrite Es at 1. apply Z.mod_mod. pose proof L_pos; lia. }
  assert (Hmod2 : s mod L = (k * a + r) mod L).
  { rewrite Hmod1. pose proof L_pos.
    rewrite Z.add_mod, Z.mul_mod_idemp_l, <- Z.add_mod by lia. reflexivity. }
  assert (Hany : forall PA' PR',
             decodes_to (Spec.PublicPoint P) PA' ->
             decodes_to (Spec.CommitmentPoint M P) PR' ->
             ge_eq (ge_scalarmult s ge_base) (ge_add PR' (ge_scalarmult k PA'))).
  { intros PA' PR' HA HR. unfold decodes_to in HA, HR.
    apply (signing_equation k a r); try assumption; try lia.
    - apply ge_p3_tobytes_inj. rewrite HA. apply PublicPoint_encodes.
    - apply ge_p3_tobytes_inj. rewrite HR. apply CommitmentPoint_encodes. }
  assert (HdA : decodes_to (Spec.PublicPoint P) (ge_scalarmult a ge_base))
    by (symmetry; apply PublicPoint_encodes).
  assert (HdR : decodes_to (Spec.CommitmentPoint M P) (ge_scalarmult r ge_base))
    by (symmetry; apply CommitmentPoint_encodes).
  split; [reflexivity|].
  split; [apply CommitmentPoint_encodes|].
  split; [exact Es|].
  split.
  { apply (signing_equation (k mod L) a r); try assumption; try lia; try reflexivity.
    apply Z.mod_pos_bound, L_pos. }
  split; [exact Hany|].
  split.
  - unfold Verifies.
    rewrite Sign_length, Sign_commitment, Sign_response.
    split; [reflexivity|]. split; [apply Hs|].
    exists (ge_scalarmult a ge_base), (ge_scalarmult r ge_base).
    split; [exact HdA|]. split; [exact HdR|].
    apply Hany; assumption.
  - unfold VerifiesCofactored.
    rewrite Sign_length, Sign_commitment, Sign_response.
    split; [reflexivity|]. split; [apply Hs|].
    exists (ge_scalarmult a ge_base), (ge_scalarmult r ge_base).
    split; [exact HdA|]. split; [exact HdR|].
    apply ge_scalarmult_proper. apply Hany; assumption.
Qed.

End Execution.

(* ================================================================= *)
(** * The interpretations meet the contracts *)

(** ** SHA-512 and edwards25519 *)

Lemma SHA512_digest_length (h : SHA512.words8) : length (SHA512.digest h) = 64%nat.
Proof.
  unfold SHA512.digest, SHA512.be_encode.
  rewrite !length_app, !length_rev, !le_encode_length. reflexivity.
Qed.

Lemma SHA512_length (x : list byte) : length (SHA512.sha512 x) = 64%nat.
Proof. apply SHA512_digest_length. Qed.

Lemma Ed25519_tobytes_length (P : Ed25519.point) : length (Ed25519.tobytes P) = 32%nat.
Proof. apply le_encode_length. Qed.

Lemma Ed25519_scalarmult_base_spec (a : list byte) :
  length a = 32%nat -> le_decode a < 2 ^ 255 ->
  ge_eq (Collaborators := Ed25519.collaborators)
    (Ed25519.scalarmult_base a)
    (ge_scalarmult (C := Ed25519.collaborators) (le_decode a) Ed25519.base).
Proof. intros _ _. reflexivity. Qed.

Lemma Ed25519_tobytes_proper (P Q : Ed25519.point) :
  Ed25519.eq P Q -> Ed25519.tobytes P = Ed25519.tobytes Q.
Proof. intros H. exact H. Qed.

(** The constants of the curve are what their comments say. *)
Example Ed25519_constants :
  BigZ.to_Z (Ed25519.fe_mul Ed25519.d 121666%bigZ) = 2 ^ 255 - 19 - 121665 /\
  BigZ.to_Z (Ed25519.fe_mul Ed25519.base_y 5%bigZ) = 4 /\
  BigZ.to_Z Ed25519.base_x mod 2 = 0.
Proof. vm_compute. repeat split; reflexivity. Qed.

(** SHA-512 of the empty string, and of "abc" (FIPS 180-4). *)
Example SHA512_empty :
  SHA512.sha512 [] =
  [xcf; x83; xe1; x35; x7e; xef; xb8; xbd; xf1; x54; x28; x50; xd6; x6d; x80; x07;
   xd6; x20; xe4; x05; x0b; x57; x15; xdc; x83; xf4; xa9; x21; xd3; x6c; xe9; xce;
   x47; xd0; xd1; x3c; x5d; x85; xf2; xb0; xff; x83; x18; xd2; x87; x7e; xec; x2f;
   x63; xb9; x31; xbd; x47; x41; x7a; x81; xa5; x38; x32; x7a; xf9; x27; xda; x3e].
Proof. vm_compute. reflexivity. Qed.

Example SHA512_abc :
  SHA512.sha512 [x61; x62; x63] =
  [xdd; xaf; x35; xa1; x93; x61; x7a; xba; xcc; x41; x73; x49; xae; x20; x41; x31;
   x12; xe6; xfa; x4e; x89; xa9; x7e; xa2; x0a; x9e; xee; xe6; x4b; x55; xd3; x9a;
   x21; x92; x99; x2a; x27; x4f; xc1; xa8; x36; xba; x3c; x23; xa3; xfe; xeb; xbd;
   x45; x4d; x44; x23; x64; x3c; xe8; x0e; x2a; x9a; xc9; x4f; xa5; x4c; xa4; x9f].
Proof. vm_compute. reflexivity. Qed.

(** ** The cyclic group of order L *)

Lemma Cyclic_eq_equiv : Equivalence Cyclic.eq.
Proof.
  unfold Cyclic.eq. split.
  - intros x. reflexivity.
  - intros x y H. symmetry. exact H.
  - intros x y z H1 H2. rewrite H1. exact H2.
Qed.

Lemma Cyclic_add_proper : Proper (Cyclic.eq ==> Cyclic.eq ==> Cyclic.eq) Z.add.
Proof.
  intros x x' Hx y y' Hy. unfold Cyclic.eq in *.
  rewrite (Z.add_mod x y), (Z.add_mod x' y'), Hx, Hy by (pose proof L_pos; lia).
  reflexivity.
Qed.

Lemma Cyclic_add_assoc (x y z : Z) : Cyclic.eq (x + (y + z)) (x + y + z).
Proof. unfold Cyclic.eq. f_equal. ring. Qed.

Lemma Cyclic_add_comm (x y : Z) : Cyclic.eq (x + y) (y + x).
Proof. unfold Cyclic.eq. f_equal. ring. Qed.

Lemma Cyclic_add_zero (x : Z) : Cyclic.eq (0 + x) x.
Proof. reflexivity. Qed.

Lemma Cyclic_iter_op (p : positive) : Pos.iter_op Z.add p 1 = Zpos p.
Proof.
  induction p as [|p IH] using Pos.peano_ind.
  - reflexivity.
  - rewrite Pos.iter_op_succ by apply Z.add_assoc. rewrite IH. lia.
Qed.

Lemma Cyclic_scalarmult (n : Z) :
  0 <= n -> ge_scalarmult (C := Cyclic.collaborators) n 1 = n.
Proof.
  intros Hn. destruct n as [|p|p]; [reflexivity | | lia].
  cbn [ge_scalarmult]. apply Cyclic_iter_op.
Qed.

Lemma Cyclic_base_order :
  Cyclic.eq (ge_scalarmult (C := Cyclic.collaborators) L 1) 0.
Proof. rewrite Cyclic_scalarmult by (pose proof L_pos; lia). reflexivity. Qed.

Lemma Cyclic_scalarmult_base_spec (a : list byte) :
  length a = 32%nat -> le_decode a < 2 ^ 255 ->
  Cyclic.eq (le_decode a) (ge_scalarmult (C := Cyclic.collaborators) (le_decode a) 1).
Proof.
  intros _ _. rewrite Cyclic_scalarmult by apply le_decode_range. reflexivity.
Qed.

Lemma Cyclic_tobytes_length (x : Z) : length (Cyclic.tobytes x) = 32%nat.
Proof. apply le_encode_length. Qed.

Lemma Cyclic_tobytes_proper (x y : Z) :
  Cyclic.eq x y -> Cyclic.tobytes x = Cyclic.tobytes y.
Proof. unfold Cyclic.eq, Cyclic.tobytes. intros H. rewrite H. reflexivity. Qed.

Lemma Cyclic_tobytes_inj (x y : Z) :
  Cyclic.tobytes x = Cyclic.tobytes y -> Cyclic.eq x y.
Proof.
  unfold Cyclic.eq, Cyclic.tobytes. intros H.
  apply (f_equal le_decode) in H.
  rewrite !le_decode_encode_scalar in H by (apply Z.mod_pos_bound, L_pos).
  exact H.
Qed.

(** ** The checksum hash *)

Lemma Checksum_length (x : list byte) : length (Checksum.hash x) = 64%nat.
Proof. unfold Checksum.hash. rewrite length_app, !le_encode_length. reflexivity. Qed.

(** ** Concrete invocations *)

Lemma frame_of_wf {C : Collaborators} (b : byte) : frame_wf (frame_of b).
Proof. repeat split; apply repeat_length. Qed.

Lemma memory_with_valid (P : list byte) :
  valid_call (memory_with P) 0 64 96 (length P).
Proof.
  unfold valid_call, memory_with.
  rewrite !length_app, repeat_length. cbn [length digest_counting]. lia.
Qed.

Lemma memory_with_digest (P : list byte) : digest_at (memory_with P) 64 = digest_counting.
Proof. reflexivity. Qed.

Lemma memory_with_password (P : list byte) :
  password_at (memory_with P) 96 (length P) = P.
Proof. unfold password_at, memory_with. cbn [repeat app skipn digest_counting]. apply firstn_all. Qed.

(* ================================================================= *)
(** * The claims on concrete invocations *)

Lemma memory_empty_password_valid : valid_call memory_empty_password 0 64 96 0.
Proof. unfold valid_call. vm_compute. repeat split; lia. Qed.

Lemma memory_secret_valid : valid_call memory_secret 0 64 96 6.
Proof. exact (memory_with_valid password_secret). Qed.

Lemma memory_secret_moved_valid : valid_call memory_secret_moved 40 6 0 6.
Proof. unfold valid_call. vm_compute. repeat split; lia. Qed.

(** ** With SHA-512 and edwards25519 *)

Section Edwards25519Runs.

#[local] Existing Instance Ed25519.collaborators.

(** The run on the empty password and the zero digest: the signature it
    leaves at [sm], after which the memory is as before. *)
Example sign_empty_password_vector :
  sign_call memory_empty_password (frame_of x00) 0 64 96 0
  = Some (vector_signature ++ repeat x00 32).
Proof. vm_compute. reflexivity. Qed.

(** What the locals hold on entry does not show in the result. *)
Example sign_empty_password_vector_other_frame :
  sign_call memory_empty_password (frame_of xa5) 0 64 96 0
  = Some (vector_signature ++ repeat x00 32).
Proof. vm_compute. reflexivity. Qed.

(** The password "secret" and the digest 00 01 .. 1f; and the same with
    [sm] = [m], the signature written over the digest it signs: the
    digest is read before anything is written. *)
Example sign_secret_vector :
  sign_call memory_secret (frame_of x00) 0 64 96 6
  = Some (vector_secret_signature ++ digest_counting ++ password_secret).
Proof. vm_compute. reflexivity. Qed.

Example sign_in_place :
  sign_call memory_in_place (frame_of x00) 0 0 64 6
  = Some (vector_secret_signature ++ password_secret).
Proof. vm_compute. reflexivity. Qed.

(** A local array one byte short makes the run fail: the bound checks
    of the model are not vacuous. *)
Example sign_short_buff_fails :
  sign_call memory_empty_password
    (Frame _ (repeat x00 64) (repeat x00 64) (repeat x00 64) (repeat x00 95)
       ge_zero ge_zero) 0 64 96 0
  = None.
Proof. vm_compute. reflexivity. Qed.

(** The same for a signature buffer of 63 bytes. *)
Example sign_short_sm_fails :
  sign_call memory_empty_password (frame_of x00) 33 0 96 0 = None.
Proof. vm_compute. reflexivity. Qed.

(** The values of that run: what [sc_muladd] is given, and the check
    of the signature on edwards25519 with the points the run computed. *)
Example sign_empty_password_operands :
  Spec.Challenge (digest_at memory_empty_password 64) (password_at memory_empty_password 96 0)
  = vector_challenge /\
  Spec.SecretScalar (password_at memory_empty_password 96 0) = vector_secret_scalar /\
  Spec.Nonce (digest_at memory_empty_password 64) (password_at memory_empty_password 96 0)
  = vector_nonce.
Proof. vm_compute. repeat split; reflexivity. Qed.

Example sign_empty_password_verifies :
  option_map
    (fun st => verifies_with (A st) (R st) (ge_p3_tobytes (A st))
                 (digest_at memory_empty_password 64) (signature_at (caller st) 0))
    (sign_run memory_empty_password (frame_of x00) 0 64 96 0)
  = Some true.
Proof. vm_compute. reflexivity. Qed.

(** Hence the signature of the vector passes the check of RFC 8032 on
    edwards25519, under the public key of the vector. *)
Example sign_empty_password_accepted :
  Verifies vector_public_key (repeat x00 32) vector_signature.
Proof.
  apply (verifies_with_sound (C := Ed25519.collaborators) (fun P Q H => H)
           (ge_scalarmult_base vector_secret_scalar) (ge_scalarmult_base vector_nonce)).
  vm_compute. reflexivity.
Qed.

(** A signature with one bit of the response flipped does not pass. *)
Example sign_empty_password_tampered :
  option_map
    (fun st => verifies_with (A st) (R st) (ge_p3_tobytes (A st))
                 (digest_at memory_empty_password 64)
                 (Spec.update 32 (fun b => byte_of_Z (Z.lxor (byte_to_Z b) 1))
                    (signature_at (caller st) 0)))
    (sign_run memory_empty_password (frame_of x00) 0 64 96 0)
  = Some false.
Proof. vm_compute. reflexivity. Qed.

(** C5 as the specification states it fails.  On the empty password and
    the zero digest the routine hands [sc_muladd] the challenge, the
    secret scalar and the nonce of the vectors above; the secret scalar
    is 35692828636287563104774995357395693170125692220817399060749631705267126240200,
    which is not below L. *)
Lemma C5_counterexample :
  exists st,
    sign_run memory_empty_password (frame_of x00) 0 64 96 0 = Some st /\
    muladd_operands (calls st) = [(vector_challenge, vector_secret_scalar, vector_nonce)] /\
    le_decode vector_secret_scalar
    = 35692828636287563104774995357395693170125692220817399060749631705267126240200 /\
    L <= le_decode vector_secret_scalar /\
    ~ all_operands_canonical st.
Proof.
  pose proof sign_empty_password_operands as (Hh & Ha & Hr).
  eexists. split.
  - apply (sign_run_final (C := Ed25519.collaborators) SHA512_length Ed25519_tobytes_length).
    + exact memory_empty_password_valid.
    + apply frame_of_wf.
  - unfold all_operands_canonical.
    rewrite final_muladd_operands, Hh, Ha, Hr.
    split; [reflexivity|].
    split; [reflexivity|].
    split; [discriminate|].
    intros Hall.
    destruct (Hall _ _ _ (or_introl eq_refl)) as (_ & (_ & Hlt) & _).
    revert Hlt. apply Z.le_ngt. discriminate.
Qed.

(** C5, amended: on the same run. *)
Lemma C5_witness :
  exists st h a r,
    sign_run memory_empty_password (frame_of x00) 0 64 96 0 = Some st /\
    muladd_operands (calls st) = [(h, a, r)] /\
    canonical h /\ canonical r /\
    2 ^ 254 <= le_decode a < 2 ^ 255 /\ L <= le_decode a /\
    canonical (skipn 32 (signature_at (caller st) 0)) /\
    ~ all_operands_canonical st.
Proof.
  apply (C5_operands (C := Ed25519.collaborators) SHA512_length Ed25519_tobytes_length).
  - exact memory_empty_password_valid.
  - apply frame_of_wf.
Defined.

(** C9: the empty password. *)
Lemma C9_witness :
  exists st,
    sign_run memory_empty_password (frame_of x00) 0 64 96 0 = Some st /\
    signature_at (caller st) 0
    = Spec.Sign (digest_at memory_empty_password 64)
        (password_at memory_empty_password 96 0) /\
    length (signature_at (caller st) 0) = 64%nat /\
    length (caller st) = length memory_empty_password /\
    length (az st) = 64%nat /\ length (nonce st) = 64%nat /\
    length (hram st) = 64%nat /\ length (buff st) = 96%nat.
Proof.
  apply (C9_sign_total (C := Ed25519.collaborators) SHA512_length Ed25519_tobytes_length).
  - exact (valid_call_accessible _ _ _ _ _ memory_empty_password_valid).
  - apply frame_of_wf.
Defined.

(** C4: the empty password. *)
Lemma C4_witness :
  exists st,
    key_derivation (Ptr Caller 96) 0 (enter memory_empty_password (frame_of x00))
    = Some (tt, st) /\
    clamped (secret_scalar st) /\
    le_decode (secret_scalar st) mod 8 = 0 /\
    2 ^ 254 <= le_decode (secret_scalar st) < 2 ^ 255 /\
    secret_scalar st = Spec.SecretScalar (password_at memory_empty_password 96 0) /\
    skipn 32 (az st) = skipn 32 (sha512 (password_at memory_empty_password 96 0)) /\
    exists st',
      sign_run memory_empty_password (frame_of x00) 0 64 96 0 = Some st' /\
      az st' = az st.
Proof.
  apply (C4_clamp_invariants (C := Ed25519.collaborators) SHA512_length Ed25519_tobytes_length).
  - exact memory_empty_password_valid.
  - apply frame_of_wf.
Defined.

(** C2: the password "secret". *)
Lemma C2_witness :
  exists st,
    sign_run memory_secret (frame_of x00) 0 64 96 6 = Some st /\
    let M := digest_at memory_secret 64 in
    let P := password_at memory_secret 96 6 in
    let sig := signature_at (caller st) 0 in
    let ChallengeScalar := le_decode (sha512 (Spec.ChallengeInput M P)) mod L in
    let SecretScalar := le_decode (Spec.SecretScalar P) in
    let Nonce := le_decode (sha512 (Spec.prefixHalf P ++ M)) mod L in
    length sig = 64%nat /\
    skipn 32 sig = le_encode 32 ((ChallengeScalar * SecretScalar + Nonce) mod L) /\
    le_decode (skipn 32 sig) = (ChallengeScalar * SecretScalar + Nonce) mod L /\
    muladd_operands (calls st) = [(challenge_scalar st, secret_scalar st, nonce_scalar st)] /\
    le_decode (challenge_scalar st) = ChallengeScalar /\
    le_decode (secret_scalar st) = SecretScalar /\
    le_decode (nonce_scalar st) = Nonce.
Proof.
  apply (C2_response_scalar (C := Ed25519.collaborators) SHA512_length Ed25519_tobytes_length).
  - exact memory_secret_valid.
  - apply frame_of_wf.
Defined.

(** C3: the password "secret". *)
Lemma C3_witness :
  exists st,
    sign_run memory_secret (frame_of x00) 0 64 96 6 = Some st /\
    let M := digest_at memory_secret 64 in
    let P := password_at memory_secret 96 6 in
    let Rb := ge_p3_tobytes (R st) in
    let Ab := ge_p3_tobytes (A st) in
    sha512_inputs (calls st) = [P; skipn 32 (sha512 P) ++ M; Rb ++ Ab ++ M] /\
    buff st = Rb ++ Ab ++ M /\
    length Rb = 32%nat /\ length Ab = 32%nat /\ length M = 32%nat /\
    R st = ge_scalarmult_base (nonce_scalar st) /\
    A st = ge_scalarmult_base (secret_scalar st) /\
    Rb = firstn 32 (signature_at (caller st) 0) /\
    challenge_scalar st = sc_reduce (sha512 (Rb ++ Ab ++ M)) /\
    le_decode (challenge_scalar st) = le_decode (sha512 (Rb ++ Ab ++ M)) mod L /\
    exists y z, muladd_operands (calls st) = [(challenge_scalar st, y, z)].
Proof.
  apply (C3_challenge_input (C := Ed25519.collaborators) SHA512_length Ed25519_tobytes_length).
  - exact memory_secret_valid.
  - apply frame_of_wf.
Defined.

(** C6: the same digest and password at other addresses, in other memory, with other
    contents of the locals. *)
Lemma C6_witness :
  exists st1 st2,
    sign_run memory_secret (frame_of x00) 0 64 96 6 = Some st1 /\
    sign_run memory_secret_moved (frame_of xff) 40 6 0 6 = Some st2 /\
    signature_at (caller st1) 0 = signature_at (caller st2) 40.
Proof.
  apply (C6_deterministic (C := Ed25519.collaborators) SHA512_length Ed25519_tobytes_length).
  - exact memory_secret_valid.
  - apply frame_of_wf.
  - exact memory_secret_moved_valid.
  - apply frame_of_wf.
  - reflexivity.
  - reflexivity.
Defined.

(** C8: the password "secret". *)
Lemma C8_witness :
  exists st,
    sign_run memory_secret (frame_of x00) 0 64 96 6 = Some st /\
    let M := digest_at memory_secret 64 in
    let P := password_at memory_secret 96 6 in
    let sig := signature_at (caller st) 0 in
    let r := le_decode (sha512 (skipn 32 (sha512 P) ++ M)) mod L in
    length sig = 64%nat /\
    sig = Spec.CommitmentPoint M P ++ Spec.Response M P /\
    length (Spec.CommitmentPoint M P) = 32%nat /\
    length (Spec.Response M P) = 32%nat /\
    le_decode (nonce_scalar st) = r /\
    scalarmult_inputs (calls st) = [secret_scalar st; nonce_scalar st] /\
    firstn 32 sig = ge_p3_tobytes (R st) /\
    firstn 32 sig = ge_p3_tobytes (ge_scalarmult r ge_base) /\
    skipn 32 sig = sc_muladd (challenge_scalar st) (secret_scalar st) (nonce_scalar st).
Proof.
  apply (C8_signature_layout (C := Ed25519.collaborators) SHA512_length Ed25519_tobytes_length
           Ed25519_scalarmult_base_spec Ed25519_tobytes_proper).
  - exact memory_secret_valid.
  - apply frame_of_wf.
Defined.

(** C10: [sm], [m] and [pw] apart from each other. *)
Lemma C10_witness :
  exists st,
    sign_run memory_secret (frame_of x00) 0 64 96 6 = Some st /\
    length (caller st) = length memory_secret /\
    (forall i, (i < 0 \/ 0 + 64 <= i)%nat ->
               nth_error (caller st) i = nth_error memory_secret i) /\
    ((64 + 32 <= 0 \/ 0 + 64 <= 64)%nat ->
     digest_at (caller st) 64 = digest_at memory_secret 64) /\
    ((96 + 6 <= 0 \/ 0 + 64 <= 96)%nat ->
     password_at (caller st) 96 6 = password_at memory_secret 96 6).
Proof.
  apply (C10_frame (C := Ed25519.collaborators) SHA512_length Ed25519_tobytes_length).
  - exact memory_secret_valid.
  - apply frame_of_wf.
Defined.

Lemma memory_in_place_valid : valid_call memory_in_place 0 0 64 6.
Proof. unfold valid_call. change (length memory_in_place) with 70%nat. lia. Qed.

Example sign_in_place_signature :
  Spec.Sign (digest_at memory_in_place 0) (password_at memory_in_place 64 6)
  = vector_secret_signature.
Proof. vm_compute. reflexivity. Qed.

(** C10 as stated does not hold in every invocation.  With [sm] = [m]
    (the password "secret" at byte 64) the run returns, and the 32 bytes
    at [m], which held the digest 00 01 .. 1f, hold the commitment half
    of the signature afterwards: the digest has been modified. *)
Lemma C10_counterexample :
  exists st,
    sign_run memory_in_place (frame_of x00) 0 0 64 6 = Some st /\
    digest_at memory_in_place 0 = digest_counting /\
    digest_at (caller st) 0 = firstn 32 vector_secret_signature /\
    digest_at (caller st) 0 <> digest_at memory_in_place 0.
Proof.
  eexists. split.
  - apply (sign_run_final (C := Ed25519.collaborators) SHA512_length Ed25519_tobytes_length).
    + exact memory_in_place_valid.
    + apply frame_of_wf.
  - cbn [final_state caller]. rewrite sign_in_place_signature.
    split; [reflexivity|]. split; [reflexivity|].
    vm_compute. discriminate.
Qed.

End Edwards25519Runs.

(** ** With the checksum hash *)

Section ChecksumRuns.

#[local] Existing Instance Checksum.collaborators.

(** Two passwords of different lengths with one checksum: their hashes
    differ, in the lower half only. *)
Example Checksum_collision :
  skipn 32 (sha512 [x01; x02]) = skipn 32 (sha512 [x03]) /\
  firstn 32 (sha512 [x01; x02]) <> firstn 32 (sha512 [x03]).
Proof. split; [reflexivity | discriminate]. Qed.

(** C7: the passwords 01 02 and 03. *)
Lemma C7_witness :
  exists st1 st2,
    sign_run (memory_with [x01; x02]) (frame_of x00) 0 64 96 2 = Some st1 /\
    sign_run (memory_with [x03]) (frame_of x00) 0 64 96 1 = Some st2 /\
    let prefix := skipn 32 (sha512 (password_at (memory_with [x01; x02]) 96 2)) in
    let M := digest_at (memory_with [x01; x02]) 64 in
    length (prefix ++ M) = 64%nat /\
    nonce_scalar st1 = sc_reduce (sha512 (prefix ++ M)) /\
    le_decode (nonce_scalar st1) = le_decode (sha512 (prefix ++ M)) mod L /\
    nonce_scalar st1 = nonce_scalar st2.
Proof.
  apply (C7_nonce (C := Checksum.collaborators) Checksum_length Cyclic_tobytes_length).
  - exact (memory_with_valid [x01; x02]).
  - apply frame_of_wf.
  - exact (memory_with_valid [x03]).
  - apply frame_of_wf.
  - reflexivity.
  - reflexivity.
Defined.

End ChecksumRuns.

(** ** With SHA-512 and the cyclic group of order L *)

Section CyclicRuns.

#[local] Existing Instance Cyclic.collaborators.

(** C1: the password "secret". *)
Lemma C1_witness :
  exists st,
    sign_run memory_secret (frame_of x00) 0 64 96 6 = Some st /\
    let M := digest_at memory_secret 64 in
    let P := password_at memory_secret 96 6 in
    let sig := signature_at (caller st) 0 in
    let Rb := firstn 32 sig in
    let s := le_decode (skipn 32 sig) in
    let a := le_decode (Spec.SecretScalar P) in
    let r := le_decode (sha512 (Spec.prefixHalf P ++ M)) mod L in
    let PA := ge_scalarmult a ge_base in
    let Ab := ge_p3_tobytes PA in
    let k := le_decode (sha512 (Rb ++ Ab ++ M)) in
    Ab = ge_p3_tobytes (ge_scalarmult_base (Spec.SecretScalar P)) /\
    Rb = ge_p3_tobytes (ge_scalarmult r ge_base) /\
    s = ((k mod L) * a + r) mod L /\
    ge_eq (ge_scalarmult s ge_base)
          (ge_add (ge_scalarmult r ge_base) (ge_scalarmult (k mod L) PA)) /\
    (forall PA' PR', decodes_to Ab PA' -> decodes_to Rb PR' ->
       ge_eq (ge_scalarmult s ge_base) (ge_add PR' (ge_scalarmult k PA'))) /\
    Verifies Ab M sig /\
    VerifiesCofactored Ab M sig.
Proof.
  apply (C1_signature_verifies (C := Cyclic.collaborators) SHA512_length Cyclic_tobytes_length
           Cyclic_eq_equiv Cyclic_add_proper Cyclic_add_assoc Cyclic_add_comm
           Cyclic_add_zero Cyclic_base_order Cyclic_scalarmult_base_spec
           Cyclic_tobytes_proper Cyclic_tobytes_inj).
  - exact memory_secret_valid.
  - apply frame_of_wf.
Defined.

End CyclicRuns.

(* ================================================================= *)
(** * The further properties on concrete invocations *)

Lemma memory_secret_other_digest_valid : valid_call memory_secret_other_digest 0 64 96 6.
Proof. unfold valid_call. vm_compute. repeat split; lia. Qed.

Section FurtherEdwards25519Runs.

#[local] Existing Instance Ed25519.collaborators.

(** The empty password with [pw] far outside the 96 bytes of memory:
    nothing is read there, and the signature is that of the vector. *)
Example sign_empty_password_anywhere :
  sign_call memory_empty_password (frame_of x00) 0 64 200 0
  = Some (vector_signature ++ repeat x00 32).
Proof. vm_compute. reflexivity. Qed.

(** One byte of password there, and the run fails. *)
Example sign_password_outside_fails :
  sign_call memory_empty_password (frame_of x00) 0 64 200 1 = None.
Proof. vm_compute. reflexivity. Qed.

(** X1: the empty password with [pw] outside the memory. *)
Lemma sign_returns_iff_valid_witness :
  sign_run memory_empty_password (frame_of x00) 0 64 200 0 <> None
  <-> accessible_call memory_empty_password 0 64 200 0.
Proof.
  apply (sign_returns_iff_valid (C := Ed25519.collaborators)
           SHA512_length Ed25519_tobytes_length).
  apply frame_of_wf.
Defined.

(** X2: locals full of 00 and locals full of ff. *)
Lemma sign_ignores_entry_locals_witness :
  exists st,
    sign_run memory_secret (frame_of x00) 0 64 96 6 = Some st /\
    sign_run memory_secret (frame_of xff) 0 64 96 6 = Some st.
Proof.
  apply (sign_ignores_entry_locals (C := Ed25519.collaborators)
           SHA512_length Ed25519_tobytes_length).
  - exact memory_secret_valid.
  - apply frame_of_wf.
  - apply frame_of_wf.
Defined.

(** X3: the password "secret" on two digests. *)
Lemma public_point_of_password_witness :
  exists st1 st2,
    sign_run memory_secret (frame_of x00) 0 64 96 6 = Some st1 /\
    sign_run memory_secret_other_digest (frame_of x00) 0 64 96 6 = Some st2 /\
    secret_scalar st1 = secret_scalar st2 /\
    A st1 = A st2 /\
    firstn 32 (skipn 32 (buff st1)) = ge_p3_tobytes (A st1) /\
    firstn 32 (skipn 32 (buff st1)) = firstn 32 (skipn 32 (buff st2)).
Proof.
  apply (public_point_of_password (C := Ed25519.collaborators)
           SHA512_length Ed25519_tobytes_length).
  - exact memory_secret_valid.
  - apply frame_of_wf.
  - exact memory_secret_other_digest_valid.
  - apply frame_of_wf.
  - reflexivity.
Defined.

(** The two digests do give two signatures, with one public point. *)
Example sign_other_digest_differs :
  option_map (fun mem => bytes_eqb (signature_at mem 0) vector_secret_signature)
    (sign_call memory_secret_other_digest (frame_of x00) 0 64 96 6)
  = Some false.
Proof. vm_compute. reflexivity. Qed.

(** X5: the password "secret". *)
Lemma sign_call_shape_witness :
  exists st,
    sign_run memory_secret (frame_of x00) 0 64 96 6 = Some st /\
    map shape_of (calls st)
    = [ ShapeSha512 6;
        ShapeSha512 64;
        ShapeScalarmultBase 32;
        ShapeTobytes;
        ShapeScReduce 64;
        ShapeScalarmultBase 32;
        ShapeTobytes;
        ShapeSha512 96;
        ShapeScReduce 64;
        ShapeScMuladd 32 32 32 ].
Proof.
  apply (sign_call_shape (C := Ed25519.collaborators)
           SHA512_length Ed25519_tobytes_length).
  - exact memory_secret_valid.
  - apply frame_of_wf.
Defined.

End FurtherEdwards25519Runs.

Section FurtherChecksumRuns.

#[local] Existing Instance Checksum.collaborators.

(** Two distinct passwords with one hash. *)
Example Checksum_full_collision :
  sha512 password_short = sha512 password_long /\ password_short <> password_long.
Proof. split; [reflexivity | discriminate]. Qed.

(** X4: those two passwords on one digest. *)
Lemma password_through_hash_only_witness :
  exists st1 st2,
    sign_run (memory_with password_short) (frame_of x00) 0 64 96 2 = Some st1 /\
    sign_run (memory_with password_long) (frame_of x00) 0 64 96 257 = Some st2 /\
    signature_at (caller st1) 0 = signature_at (caller st2) 0 /\
    az st1 = az st2 /\ nonce st1 = nonce st2 /\
    hram st1 = hram st2 /\ buff st1 = buff st2 /\
    tl (calls st1) = tl (calls st2).
Proof.
  apply (password_through_hash_only (C := Checksum.collaborators)
           Checksum_length Cyclic_tobytes_length).
  - exact (memory_with_valid password_short).
  - apply frame_of_wf.
  - exact (memory_with_valid password_long).
  - apply frame_of_wf.
  - reflexivity.
  - reflexivity.
Defined.

End FurtherChecksumRuns.
